(** * Haka: a scrolling audio-level bar timeline

    A shallow embedding of the [Haka] class (constructor, [initialize],
    [animate], [soundAllowed], [soundNotAllowed], [start], [stop]) and the
    properties of its bar timeline.

    Modelling conventions.
    - A JavaScript [number] is an exact rational ([Q]); the not-a-number
      value, the infinities and binary rounding are outside the model.
      Equality of numbers is [Qeq] (written [==]).
    - Three lines turn a rounded value into a discrete outcome: the segment
      count of line 175, the noise threshold of line 119 and the backing
      store size of lines 76-77.  For these the binary64 value is defined
      beside the exact one ([round64] and what follows it), and a statement
      about the outcome assumes that rounding leaves it unchanged.
    - An optional option ([field?: T]) is an [option]; [None] stands for
      [undefined] (and [null]).
    - The instance fields assigned only by the constructor form [Config];
      the fields that methods assign form [State].
    - The host (canvas context, console, media devices, frame scheduler)
      appears as the list of [Event]s a method emits, and as three
      bookkeeping fields of [State]: the clock, the number of [Bar] objects
      allocated so far, and the frame callbacks that are scheduled. *)

From Stdlib Require Import QArith Qround Qabs Lqa ZArith Lia List Bool String.
From Stdlib Require Import Sorted Permutation.
Import ListNotations.

Local Open Scope Q_scope.

(** ** Numbers *)

Definition Qltb (a b : Q) : bool := negb (Qle_bool b a).

(** The functions of the [Math] object that the class calls. *)
Module Math.
Definition floor (v : Q) : Z := Qfloor v.
Definition ceil (v : Q) : Z := Qceiling v.
Definition min (a b : Q) : Q := if Qltb b a then b else a.
Definition pow (b : Q) (e : positive) : Q := Qpower_positive b e.
End Math.

(** ** Binary64 *)

(** 2 to the power [e]. *)
Definition pow2 (e : Z) : Q :=
  match e with
  | Z0 => 1
  | Zpos p => inject_Z (Z.pow_pos 2 p)
  | Zneg p => 1 # (Pos.pow 2 p)
  end.

(** The exponent of a positive number: the largest [e] with 2^e <= a. *)
Definition ilog2 (a : Q) : Z :=
  let e0 := (Z.log2 (Qnum a) - Z.log2 (Zpos (Qden a)))%Z in
  if Qle_bool (pow2 e0) a then e0 else (e0 - 1)%Z.

(** The nearest integer, ties to the even one. *)
Definition round_half_even (m : Q) : Z :=
  let f := Qfloor m in
  match Qcompare (m - inject_Z f) (1 # 2) with
  | Lt => f
  | Gt => (f + 1)%Z
  | Eq => if Z.even f then f else (f + 1)%Z
  end.

(** The nearest number with a 53-bit significand (fewer below 2^-1022),
    ties to even.  A result of magnitude 2^1024 or more stands for an
    infinity. *)
Definition round64_pos (a : Q) : Q :=
  let e := ilog2 a in
  let g := Z.max (e - 52) (-1074) in
  Qred (inject_Z (round_half_even (a / pow2 g)) * pow2 g).

Definition round64 (q : Q) : Q :=
  match Qnum q with
  | Z0 => 0
  | Zpos _ => round64_pos q
  | Zneg _ => - round64_pos (- q)
  end.

Definition is_finite64 (q : Q) : bool := Qltb (Qabs q) (pow2 1024).

(** The binary64 sum, product and quotient of the numbers nearest to [a]
    and [b]. *)
Definition add64 (a b : Q) : Q := round64 (round64 a + round64 b).
Definition mul64 (a b : Q) : Q := round64 (round64 a * round64 b).
Definition div64 (a b : Q) : Q := round64 (round64 a / round64 b).

(** [v || d] on an optional number: zero and [undefined] are falsy. *)
Definition num_or (v : option Q) (d : Q) : Q :=
  match v with
  | Some q => if Qeq_bool q 0 then d else q
  | None => d
  end.

(** [v || d] on an optional string: the empty string and [undefined] are
    falsy. *)
Definition str_or (v : option string) (d : string) : string :=
  match v with
  | Some EmptyString => d
  | Some s => s
  | None => d
  end.

(** [v || d] on an optional function: a function is always truthy. *)
Definition fun_or (v : option (Q -> Q)) (d : Q -> Q) : Q -> Q :=
  match v with
  | Some f => f
  | None => d
  end.

(** [v ?? d]: only [undefined] (and [null]) fall back. *)
Definition nullish (v : option Q) (d : Q) : Q :=
  match v with
  | Some q => q
  | None => d
  end.

(** ** Data *)

Inductive Status : Type := placeholder | recorded.

Definition Status_eqb (a b : Status) : bool :=
  match a, b with
  | placeholder, placeholder => true
  | recorded, recorded => true
  | _, _ => false
  end.

Module Bar.
Record t : Type := mk {
  x : Q;
  y : Q;
  width : Q;
  height : Q;
  targetHeight : Q;
  created : Q;
  status : Status
}.

Definition set_x (b : t) (v : Q) : t :=
  mk v (y b) (width b) (height b) (targetHeight b) (created b) (status b).
Definition set_y (b : t) (v : Q) : t :=
  mk (x b) v (width b) (height b) (targetHeight b) (created b) (status b).
Definition set_height (b : t) (v : Q) : t :=
  mk (x b) (y b) (width b) v (targetHeight b) (created b) (status b).
End Bar.

(** An entry of the [bars] array: the identity of the [Bar] object (its
    allocation number) and the current value of its fields. *)
Definition BarRef : Type := (nat * Bar.t)%type.

(** The canvas element as the constructor sees it. *)
Record Canvas : Type := mkCanvas {
  has2d : bool;          (* getContext('2d') is not null *)
  offsetWidth : Q;
  offsetHeight : Q
}.

Record HakaOptions : Type := mkOptions {
  canvas : Canvas;
  opt_timeOffset : option Q;
  opt_barWidth : option Q;
  opt_barGap : option Q;
  opt_scrollSpeed : option Q;
  opt_barColor : option string;
  opt_dotColor : option string;
  opt_blackDotColor : option string;
  opt_noiseThreshold : option Q;
  opt_easing : option (Q -> Q);
  opt_expandDuration : option Q
}.

(** Fields assigned by the constructor (and [setupCanvas]) only. *)
Record Config : Type := mkConfig {
  width : Q;
  height : Q;
  timeOffset : Q;
  barWidth : Q;
  barGap : Q;
  scrollSpeed : Q;
  barColor : string;
  dotColor : string;
  blackDotColor : string;
  noiseThreshold : Q;
  easing : Q -> Q;
  expandDuration : Q
}.

Record State : Type := mkState {
  bars : list BarRef;
  lastDataCollectionTime : Q;
  analyser : bool;                       (* an AnalyserNode is attached *)
  frequencyArray : option (list Q);
  animationFrameId : option nat;
  (* host bookkeeping *)
  clock : Q;                 (* the latest reading of performance.now() *)
  allocated : nat;           (* Bar objects created so far *)
  pending : list nat         (* frame callbacks requested and not cancelled *)
}.

Inductive Event : Type :=
| ClearRect (x y w h : Q)
| FillRect (fillStyle : string) (x y w h : Q)
| RequestAnimationFrame (id : nat)
| CancelAnimationFrame (id : nat)
| GetUserMedia
| ConsoleError (msg : string) (err : string).

(** What the host supplies to one run of [animate]: the clock reading, the
    analyser's current time-domain data, and the handle that
    [requestAnimationFrame] returns. *)
Record Tick : Type := mkTick {
  now : Q;
  timeDomainData : list Q;
  frameId : nat
}.

(** The outcome of [getUserMedia]: granted (with the clock reading taken by
    [soundAllowed] and the first tick), or rejected with an error. *)
Inductive Outcome : Type :=
| Granted (t : Q) (e : Tick)
| Denied (err : string).

(** ** The class *)

Definition easeInOutCubic (x : Q) : Q :=
  if Qltb x (1 # 2) then 4 * x * x * x
  else 1 - Math.pow (- (2) * x + 2) 3 / 2.

(** The constructor: [inr] is the thrown error. *)
Definition constructor (options : HakaOptions) : Config + string :=
  let timeOffset := num_or (opt_timeOffset options) 100 in
  let barWidth := num_or (opt_barWidth options) 3 in
  let barGap := num_or (opt_barGap options) 10 in
  let scrollSpeed := num_or (opt_scrollSpeed options) 1 in
  let barColor := str_or (opt_barColor options) "#FFFFFF" in
  let dotColor := str_or (opt_dotColor options) "#666666" in
  let blackDotColor := str_or (opt_blackDotColor options) "#000000" in
  let noiseThreshold := nullish (opt_noiseThreshold options) (1 # 100) in
  let expandDuration := num_or (opt_expandDuration options) 200 in
  let easing := fun_or (opt_easing options) easeInOutCubic in
  if has2d (canvas options) then
    inl (mkConfig (offsetWidth (canvas options)) (offsetHeight (canvas options))
           timeOffset barWidth barGap scrollSpeed barColor dotColor
           blackDotColor noiseThreshold easing expandDuration)
  else inr "Could not get 2D context from canvas"%string.

(** The instance right after construction. *)
Definition new_state (t : Q) : State :=
  mkState [] 0 false None None t 0 [].

Definition set_bars (s : State) (bs : list BarRef) (n : nat) : State :=
  mkState bs (lastDataCollectionTime s) (analyser s) (frequencyArray s)
    (animationFrameId s) (clock s) n (pending s).

(** [getFloatTimeDomainData(array)]: copies the data into the array; excess
    data is dropped, excess array elements keep their value. *)
Definition getFloatTimeDomainData (data array : list Q) : list Q :=
  firstn (List.length array) data ++ skipn (List.length data) array.

(** The loop of lines 100-105. *)
Definition peak (array : list Q) : Q :=
  fold_left (fun max v => if Qltb max v then v else max) array 0.

(** The [x] of the last bar, or the surface width when there is none. *)
Definition lastX (c : Config) (bs : list BarRef) : Q :=
  match rev bs with
  | (_, b) :: _ => Bar.x b
  | [] => width c
  end.

(** The guard of the sampling block: edge room, an attached source, and
    the sample interval strictly exceeded. *)
Definition samples (c : Config) (e : Tick) (s : State) : bool :=
  Qle_bool (barWidth c + barGap c) (width c - lastX c (bars s))
  && (analyser s
      && match frequencyArray s with Some _ => true | None => false end
      && Qltb (timeOffset c) (now e - lastDataCollectionTime s)).

Definition new_bar (c : Config) (t : Q) (array : list Q) : Bar.t :=
  let max := peak array in
  let barHeight := inject_Z (Math.floor (max * height c * (12 # 10))) in
  Bar.mk (width c) 0 (barWidth c) 0 barHeight t recorded.

(** Lines 96-116: take a sample and push a bar, or do nothing. *)
Definition sample (c : Config) (e : Tick) (s : State) : State :=
  if samples c e s then
    match frequencyArray s with
    | Some array =>
        let array' := getFloatTimeDomainData (timeDomainData e) array in
        mkState (bars s ++ [(allocated s, new_bar c (now e) array')])
          (now e) (analyser s) (Some array') (animationFrameId s)
          (clock s) (S (allocated s)) (pending s)
    | None => s
    end
  else s.

(** Lines 123-143: the height update and the rectangle painted for one
    bar. *)
Definition grow (c : Config) (t : Q) (b : Bar.t) : Bar.t :=
  match Bar.status b with
  | placeholder => b
  | recorded =>
      let age := t - Bar.created b in
      let rawProgress := Math.min (age / expandDuration c) 1 in
      let expandProgress := easing c rawProgress in
      let b1 := Bar.set_height b (Bar.targetHeight b * expandProgress) in
      Bar.set_y b1 (height c / 2 - Bar.height b1 / 2)
  end.

Definition paint (c : Config) (minHeight : Q) (b : Bar.t) : Event :=
  match Bar.status b with
  | placeholder =>
      let dotY := height c / 2 - 1 in
      FillRect (blackDotColor c) (Bar.x b) dotY (Bar.width b) 2
  | recorded =>
      if Qltb (Bar.targetHeight b) minHeight then
        let dotY := height c / 2 - 1 in
        FillRect (dotColor c) (Bar.x b) dotY (Bar.width b) 2
      else
        FillRect (barColor c) (Bar.x b) (Bar.y b) (Bar.width b) (Bar.height b)
  end.

(** Lines 145-149: the scroll, and the test that removes the bar. *)
Definition scroll (c : Config) (b : Bar.t) : Bar.t :=
  Bar.set_x b (Bar.x b - scrollSpeed c).

Definition offscreen (b : Bar.t) : bool := Qltb (Bar.x b + Bar.width b) 0.

(** [bars.splice(i, 1)] and [bars[i] = v]. *)
Definition splice1 {A : Type} (i : nat) (l : list A) : list A :=
  firstn i l ++ skipn (S i) l.

Definition assign {A : Type} (i : nat) (v : A) (l : list A) : list A :=
  firstn i l ++ v :: skipn (S i) l.

(** The loop of lines 120-150, for [i] from [k - 1] down to [0].  The body
    mutates [bars[i]] in place and may splice it out; the events are the
    rectangles in painting order. *)
Fixpoint age_loop (c : Config) (t minHeight : Q) (k : nat)
    (bs : list BarRef) (out : list Event) : list BarRef * list Event :=
  match k with
  | O => (bs, out)
  | S i =>
      match nth_error bs i with
      | Some (r, bar) =>
          let bar1 := grow c t bar in
          let out1 := out ++ [paint c minHeight bar1] in
          let bar2 := scroll c bar1 in
          if offscreen bar2
          then age_loop c t minHeight i (splice1 i bs) out1
          else age_loop c t minHeight i (assign i (r, bar2) bs) out1
      | None => age_loop c t minHeight i bs out
      end
  end.

Definition animate (c : Config) (e : Tick) (s : State) : State * list Event :=
  let s1 := sample c e s in
  let minHeight := height c * noiseThreshold c in
  let '(bs, rects) :=
    age_loop c (now e) minHeight (List.length (bars s1)) (bars s1) [] in
  (mkState bs (lastDataCollectionTime s1) (analyser s1) (frequencyArray s1)
     (Some (frameId e)) (now e) (allocated s1) (frameId e :: pending s1),
   ClearRect 0 0 (width c) (height c) :: rects
     ++ [RequestAnimationFrame (frameId e)]).

(** [soundAllowed]: attaches the analyser and a 512-sample buffer, reads the
    clock, and runs the first tick. *)
Definition attach (t : Q) (s : State) : State :=
  mkState (bars s) t true (Some (repeat 0 512)) (animationFrameId s)
    t (allocated s) (pending s).

Definition soundAllowed (c : Config) (t : Q) (e : Tick) (s : State)
  : State * list Event :=
  animate c e (attach t s).

Definition soundNotAllowed (err : string) (s : State) : State * list Event :=
  (s, [ConsoleError "Error getting audio stream:" err]).

Definition drawInitialFrame (c : Config) (s : State) : list Event :=
  let dotY := height c / 2 - 1 in
  ClearRect 0 0 (width c) (height c)
    :: map (fun rb : BarRef =>
              FillRect (blackDotColor c) (Bar.x (snd rb)) dotY
                (Bar.width (snd rb)) 2) (bars s).

(** The seeding loop of [initialize]: [todo] iterations remain, the next
    index is [i]. *)
Fixpoint seed_loop (c : Config) (todo i : nat) (s : State) : State :=
  match todo with
  | O => s
  | S todo' =>
      let b := Bar.mk (inject_Z (Z.of_nat i) * (barWidth c + barGap c))
                 0 (barWidth c) 0 0 0 placeholder in
      seed_loop c todo' (S i)
        (set_bars s (bars s ++ [(allocated s, b)]) (S (allocated s)))
  end.

(** [initialize].  With [barWidth + barGap = 0] and a positive width the
    segment count is infinite and the loop does not end: [None].  The
    segment count is the exact one; it is the loop bound of the code where
    [exact_count] holds. *)
Definition initialize (c : Config) (s : State) : option (State * list Event) :=
  let s0 := set_bars s [] (allocated s) in
  let step := barWidth c + barGap c in
  if Qeq_bool step 0 then
    if Qltb 0 (width c) then None
    else Some (s0, drawInitialFrame c s0)
  else
    let visibleSegmentCount := Math.ceil (width c / step) in
    let s1 := seed_loop c (Z.to_nat visibleSegmentCount) 0 s0 in
    Some (s1, drawInitialFrame c s1).

Definition start (c : Config) (o : Outcome) (s : State) : State * list Event :=
  match o with
  | Granted t e =>
      let '(s', ev) := soundAllowed c t e s in (s', GetUserMedia :: ev)
  | Denied err =>
      let '(s', ev) := soundNotAllowed err s in (s', GetUserMedia :: ev)
  end.

(** [stop]: a handle of 0 is falsy. *)
Definition stop (s : State) : State * list Event :=
  match animationFrameId s with
  | Some id =>
      if Nat.eqb id 0 then (s, [])
      else
        (mkState (bars s) (lastDataCollectionTime s) (analyser s)
           (frequencyArray s) (animationFrameId s) (clock s) (allocated s)
           (filter (fun j => negb (Nat.eqb j id)) (pending s)),
         [CancelAnimationFrame id])
  | None => (s, [])
  end.

(** ** The outcomes that depend on rounding *)

(** Line 175 in binary64: the loop bound of [initialize].  [None] when the
    quotient is not a finite number. *)
Definition visibleSegmentCount64 (c : Config) : option Z :=
  let pitch := add64 (barWidth c) (barGap c) in
  if Qeq_bool pitch 0 then None
  else
    let q := div64 (width c) pitch in
    if is_finite64 q then Some (Math.ceil q) else None.

(** Rounding does not change the segment count. *)
Definition exact_count (c : Config) : Prop :=
  visibleSegmentCount64 c
  = Some (Math.ceil (width c / (barWidth c + barGap c))).

(** Line 119 in binary64: the threshold that the bars are compared with. *)
Definition minHeight64 (c : Config) : Q :=
  mul64 (height c) (noiseThreshold c).

(** Rounding does not change the threshold. *)
Definition exact_threshold (c : Config) : Prop :=
  minHeight64 c == height c * noiseThreshold c.

(** ** The host: which calls can happen, and when *)

Inductive Call : Type :=
| CallInitialize
| CallStart (o : Outcome)
| CallStop
| Frame (id : nat) (e : Tick).

Definition unschedule (id : nat) (s : State) : State :=
  mkState (bars s) (lastDataCollectionTime s) (analyser s) (frequencyArray s)
    (animationFrameId s) (clock s) (allocated s)
    (filter (fun j => negb (Nat.eqb j id)) (pending s)).

(** One step of the host.  The clock never runs backwards, and a frame
    callback runs only if it was requested and not cancelled. *)
Inductive step (c : Config) : State -> Call -> list Event -> State -> Prop :=
| step_initialize s s' ev :
    initialize c s = Some (s', ev) ->
    step c s CallInitialize ev s'
| step_start_granted s t e :
    clock s <= t -> t <= now e ->
    step c s (CallStart (Granted t e))
      (snd (start c (Granted t e) s)) (fst (start c (Granted t e) s))
| step_start_denied s err :
    step c s (CallStart (Denied err))
      (snd (start c (Denied err) s)) (fst (start c (Denied err) s))
| step_stop s :
    step c s CallStop (snd (stop s)) (fst (stop s))
| step_frame s id e :
    In id (pending s) -> clock s <= now e ->
    step c s (Frame id e)
      (snd (animate c e (unschedule id s)))
      (fst (animate c e (unschedule id s))).

Inductive steps (c : Config) : State -> list Call -> State -> Prop :=
| steps_nil s : steps c s [] s
| steps_snoc s s1 s2 calls call ev :
    steps c s calls s1 -> step c s1 call ev s2 ->
    steps c s (calls ++ [call]) s2.

Definition reachable (c : Config) (s : State) : Prop :=
  exists t calls, steps c (new_state t) calls s.

(** ** Basic facts about the number operations *)

Lemma Qltb_lt (a b : Q) : Qltb a b = true <-> a < b.
Proof.
  unfold Qltb. rewrite negb_true_iff. split; intro H.
  - apply Qnot_le_lt. intro Hle. apply Qle_bool_iff in Hle. congruence.
  - destruct (Qle_bool b a) eqn:E; [|reflexivity].
    apply Qle_bool_iff in E. exfalso. exact (Qlt_not_le _ _ H E).
Qed.

Lemma Qltb_ge (a b : Q) : Qltb a b = false <-> b <= a.
Proof.
  unfold Qltb. rewrite negb_false_iff. apply Qle_bool_iff.
Qed.

Lemma min_le_r (a b : Q) : Math.min a b <= b.
Proof.
  unfold Math.min. destruct (Qltb b a) eqn:E.
  - apply Qle_refl.
  - apply Qltb_ge in E. exact E.
Qed.

Lemma min_glb (a b m : Q) : m <= a -> m <= b -> m <= Math.min a b.
Proof.
  intros Ha Hb. unfold Math.min. destruct (Qltb b a); assumption.
Qed.

Lemma min_one (a : Q) : 1 <= a -> Math.min a 1 == 1.
Proof.
  intro H. unfold Math.min. destruct (Qltb 1 a) eqn:E.
  - reflexivity.
  - apply Qltb_ge in E. lra.
Qed.

Lemma min_mono (a b m : Q) : a <= b -> Math.min a m <= Math.min b m.
Proof.
  intro H. unfold Math.min.
  destruct (Qltb m a) eqn:Ea, (Qltb m b) eqn:Eb;
    rewrite ?Qltb_lt, ?Qltb_ge in *; lra.
Qed.

Lemma floor_nonneg (v : Q) : 0 <= v -> 0 <= inject_Z (Math.floor v).
Proof.
  intro H. unfold Math.floor.
  apply Qfloor_resp_le in H. change (Qfloor 0) with 0%Z in H.
  change 0 with (inject_Z 0). rewrite <- Zle_Qle. exact H.
Qed.

(** ** The ageing loop as a map and a filter *)

Definition aged (c : Config) (t : Q) (rb : BarRef) : BarRef :=
  (fst rb, scroll c (grow c t (snd rb))).

Definition onscreen (rb : BarRef) : bool := negb (offscreen (snd rb)).

Definition painted (c : Config) (t : Q) (rb : BarRef) : Event :=
  paint c (height c * noiseThreshold c) (grow c t (snd rb)).

Lemma nth_error_middle {A : Type} (l1 l2 : list A) (a : A) :
  nth_error (l1 ++ a :: l2) (List.length l1) = Some a.
Proof.
  induction l1; simpl; auto.
Qed.

Lemma splice1_middle {A : Type} (l1 l2 : list A) (a : A) :
  splice1 (List.length l1) (l1 ++ a :: l2) = l1 ++ l2.
Proof.
  unfold splice1. induction l1; simpl; [reflexivity|].
  f_equal. exact IHl1.
Qed.

Lemma assign_middle {A : Type} (l1 l2 : list A) (a v : A) :
  assign (List.length l1) v (l1 ++ a :: l2) = l1 ++ v :: l2.
Proof.
  unfold assign. induction l1; simpl; [reflexivity|].
  f_equal. exact IHl1.
Qed.

Lemma age_loop_spec (c : Config) (t : Q) (pre : list BarRef) :
  forall suf out,
    age_loop c t (height c * noiseThreshold c) (List.length pre)
      (pre ++ suf) out
    = (filter onscreen (map (aged c t) pre) ++ suf,
       out ++ map (painted c t) (rev pre)).
Proof.
  induction pre as [|[r b] pre IH] using rev_ind; intros suf out.
  - simpl. rewrite app_nil_r. reflexivity.
  - rewrite length_app, Nat.add_comm. simpl.
    rewrite <- app_assoc. simpl.
    rewrite nth_error_middle.
    rewrite map_app, filter_app, rev_app_distr. simpl.
    unfold onscreen at 2. simpl.
    destruct (offscreen (scroll c (grow c t b))) eqn:E; simpl.
    + rewrite splice1_middle, IH, app_nil_r, <- app_assoc. reflexivity.
    + rewrite assign_middle, IH, <- !app_assoc. reflexivity.
Qed.

Lemma animate_bars (c : Config) (e : Tick) (s : State) :
  bars (fst (animate c e s))
  = filter onscreen (map (aged c (now e)) (bars (sample c e s))).
Proof.
  unfold animate.
  pose proof (age_loop_spec c (now e) (bars (sample c e s)) [] []) as H.
  rewrite app_nil_r in H. rewrite H. simpl. rewrite app_nil_r. reflexivity.
Qed.

Lemma animate_events (c : Config) (e : Tick) (s : State) :
  snd (animate c e s)
  = ClearRect 0 0 (width c) (height c)
      :: map (painted c (now e)) (rev (bars (sample c e s)))
      ++ [RequestAnimationFrame (frameId e)].
Proof.
  unfold animate.
  pose proof (age_loop_spec c (now e) (bars (sample c e s)) [] []) as H.
  rewrite app_nil_r in H. rewrite H. reflexivity.
Qed.

Lemma animate_fields (c : Config) (e : Tick) (s : State) :
  let s' := fst (animate c e s) in
  lastDataCollectionTime s' = lastDataCollectionTime (sample c e s)
  /\ analyser s' = analyser s
  /\ clock s' = now e
  /\ allocated s' = allocated (sample c e s)
  /\ pending s' = frameId e :: pending s
  /\ animationFrameId s' = Some (frameId e).
Proof.
  unfold animate.
  destruct (age_loop c (now e) (height c * noiseThreshold c)
              (List.length (bars (sample c e s))) (bars (sample c e s)) [])
    as [bs rects].
  simpl. unfold sample.
  destruct (samples c e s); [destruct (frequencyArray s)|]; simpl; auto 10.
Qed.

(** ** The constructor's defaults *)

(** The falsy values of an optional number and of an optional string. *)
Definition falsy_num (v : option Q) : Prop :=
  v = None \/ exists q, v = Some q /\ q == 0.

Definition falsy_str (v : option string) : Prop :=
  v = None \/ v = Some EmptyString.

Lemma num_or_falsy (v : option Q) (d : Q) : falsy_num v -> num_or v d = d.
Proof.
  intros [-> | [q [-> Hq]]]; simpl; [reflexivity|].
  apply Qeq_bool_iff in Hq. rewrite Hq. reflexivity.
Qed.

Lemma num_or_nonzero (v : option Q) (d : Q) : ~ d == 0 -> ~ num_or v d == 0.
Proof.
  intros Hd. destruct v as [q|]; simpl; [|exact Hd].
  destruct (Qeq_bool q 0) eqn:E; [exact Hd|].
  intro Hq. apply Qeq_bool_iff in Hq. congruence.
Qed.

Lemma str_or_falsy (v : option string) (d : string) :
  falsy_str v -> str_or v d = d.
Proof.
  intros [-> | ->]; reflexivity.
Qed.

(** The configuration that [new Haka({canvas})] yields on a canvas of the
    given size. *)
Definition default_config (w h : Q) : Config :=
  mkConfig w h 100 3 10 1 "#FFFFFF" "#666666" "#000000" (1 # 100)
    easeInOutCubic 200.

Definition no_options (cv : Canvas) : HakaOptions :=
  mkOptions cv None None None None None None None None None None.

Lemma constructor_default (w h : Q) :
  constructor (no_options (mkCanvas true w h)) = inl (default_config w h).
Proof.
  reflexivity.
Qed.

(** C10: at construction a falsy value of [timeOffset], [barWidth],
    [barGap], [scrollSpeed], [barColor], [dotColor], [blackDotColor],
    [expandDuration] or [easing] yields the default, so [scrollSpeed: 0]
    becomes 1 and [expandDuration: 0] becomes 200 and neither can be zero
    in a constructed instance; [noiseThreshold: 0] is kept, and only a
    missing [noiseThreshold] becomes 0.01. *)
Theorem constructor_falsy_defaults (options : HakaOptions) (c : Config) :
  constructor options = inl c ->
  (falsy_num (opt_timeOffset options) -> timeOffset c = 100)
  /\ (falsy_num (opt_barWidth options) -> barWidth c = 3)
  /\ (falsy_num (opt_barGap options) -> barGap c = 10)
  /\ (falsy_num (opt_scrollSpeed options) -> scrollSpeed c = 1)
  /\ (falsy_str (opt_barColor options) -> barColor c = "#FFFFFF"%string)
  /\ (falsy_str (opt_dotColor options) -> dotColor c = "#666666"%string)
  /\ (falsy_str (opt_blackDotColor options)
      -> blackDotColor c = "#000000"%string)
  /\ (falsy_num (opt_expandDuration options) -> expandDuration c = 200)
  /\ (opt_easing options = None -> easing c = easeInOutCubic)
  /\ (opt_scrollSpeed options = Some 0 -> scrollSpeed c = 1)
  /\ (opt_expandDuration options = Some 0 -> expandDuration c = 200)
  /\ ~ scrollSpeed c == 0
  /\ ~ expandDuration c == 0
  /\ (forall q, opt_noiseThreshold options = Some q -> noiseThreshold c = q)
  /\ (opt_noiseThreshold options = Some 0 -> noiseThreshold c = 0)
  /\ (opt_noiseThreshold options = None -> noiseThreshold c = 1 # 100).
Proof.
  unfold constructor. destruct (has2d (canvas options)); [|discriminate].
  intro H. injection H as <-. simpl.
  repeat split;
    try (intro Hf; first [ apply num_or_falsy; exact Hf
                         | apply str_or_falsy; exact Hf
                         | rewrite Hf; reflexivity ]).
  - apply num_or_nonzero. discriminate.
  - apply num_or_nonzero. discriminate.
  - intros q Hq. rewrite Hq. reflexivity.
Qed.

Definition zeroed_options : HakaOptions :=
  mkOptions (mkCanvas true 100 100) (Some 0) (Some 0) (Some 0) (Some 0)
    (Some EmptyString) (Some EmptyString) (Some EmptyString) (Some 0)
    None (Some 0).

Lemma constructor_falsy_defaults_witness :
  constructor zeroed_options
  = inl (mkConfig 100 100 100 3 10 1 "#FFFFFF" "#666666" "#000000" 0
           easeInOutCubic 200)
  /\ scrollSpeed (mkConfig 100 100 100 3 10 1 "#FFFFFF" "#666666" "#000000" 0
                    easeInOutCubic 200) = 1.
Proof.
  split; [reflexivity|].
  destruct (constructor_falsy_defaults zeroed_options
              (mkConfig 100 100 100 3 10 1 "#FFFFFF" "#666666" "#000000" 0
                 easeInOutCubic 200) eq_refl) as (_ & _ & _ & H & _).
  apply H. right. exists 0. split; reflexivity.
Defined.

(** ** Peak extraction *)

(** The peak as the specification words it: the largest absolute sample
    value. *)
Definition peak_abs (array : list Q) : Q :=
  fold_left (fun m v => if Qltb m (Qabs v) then Qabs v else m) array 0.

Lemma peak_from (array : list Q) :
  forall m0,
    let m := fold_left (fun max v => if Qltb max v then v else max) array m0 in
    m0 <= m /\ Forall (fun v => v <= m) array /\ (m = m0 \/ In m array).
Proof.
  induction array as [|v array IH]; intro m0; simpl.
  - split; [apply Qle_refl|]. split; [constructor|]. left; reflexivity.
  - destruct (Qltb m0 v) eqn:E.
    + apply Qltb_lt in E. destruct (IH v) as (H1 & H2 & H3).
      split; [lra|]. split; [constructor; assumption|].
      destruct H3 as [-> | H3]; auto.
    + apply Qltb_ge in E. destruct (IH m0) as (H1 & H2 & H3).
      split; [assumption|]. split; [constructor; [lra | assumption]|].
      destruct H3 as [H3 | H3]; auto.
Qed.

(** What the loop computes: the largest of 0 and the raw sample values. *)
Lemma peak_spec (array : list Q) :
  0 <= peak array
  /\ Forall (fun v => v <= peak array) array
  /\ (peak array = 0 \/ In (peak array) array).
Proof.
  exact (peak_from array 0).
Qed.

Lemma Qabs_nonneg_id (v : Q) : 0 <= v -> Qabs v = v.
Proof.
  destruct v as [n d]. unfold Qle, Qabs. simpl. intro H.
  rewrite Z.abs_eq; [reflexivity | lia].
Qed.

(** On a buffer without negative samples the loop finds the largest
    absolute value. *)
Lemma peak_abs_nonneg (array : list Q) :
  Forall (fun v => 0 <= v) array -> peak array = peak_abs array.
Proof.
  unfold peak, peak_abs. generalize 0 at 2 3 as m0.
  induction array as [|v array IH]; intros m0 H; simpl; [reflexivity|].
  inversion H; subst. rewrite (Qabs_nonneg_id v) by assumption. auto.
Qed.

(** On a tick that samples, the pushed bar is recorded, sits at the right
    edge, and its target height is the floor of peak * height * 1.2. *)
Lemma sample_pushes (c : Config) (e : Tick) (s : State) :
  samples c e s = true ->
  exists array,
    frequencyArray s = Some array
    /\ bars (sample c e s)
       = bars s
         ++ [(allocated s,
              Bar.mk (width c) 0 (barWidth c) 0
                (inject_Z (Qfloor
                   (peak (getFloatTimeDomainData (timeDomainData e) array)
                    * height c * (12 # 10))))
                (now e) recorded)]
    /\ lastDataCollectionTime (sample c e s) = now e
    /\ allocated (sample c e s) = S (allocated s).
Proof.
  intro H. unfold sample. rewrite H. unfold samples in H.
  destruct (frequencyArray s) as [array|].
  - exists array. simpl. auto.
  - rewrite andb_false_r in H. simpl in H. rewrite andb_false_r in H.
    discriminate.
Qed.

Lemma sample_skips (c : Config) (e : Tick) (s : State) :
  samples c e s = false -> sample c e s = s.
Proof.
  intro H. unfold sample. rewrite H. reflexivity.
Qed.

(** A run: seed, start with the stream granted at time 0, and three more
    frames, all on silence. *)
Definition seeded_at (c : Config) (t : Q) : State :=
  match initialize c (new_state t) with
  | Some (s, _) => s
  | None => new_state t
  end.

Definition seeded (c : Config) : State := seeded_at c 0.

Definition quiet_run_of (c : Config) : State :=
  let s1 := fst (start c (Granted 0 (mkTick 0 (repeat 0 512) 1)) (seeded c)) in
  let s2 := fst (animate c (mkTick 16 (repeat 0 512) 2) (unschedule 1 s1)) in
  let s3 := fst (animate c (mkTick 32 (repeat 0 512) 3) (unschedule 2 s2)) in
  fst (animate c (mkTick 48 (repeat 0 512) 4) (unschedule 3 s3)).

(** The run on a 100 x 100 canvas with the default options. *)
Definition quiet_run : State := quiet_run_of (default_config 100 100).

Lemma reachable_new (c : Config) (t : Q) : reachable c (new_state t).
Proof.
  exists t, []. constructor.
Qed.

Lemma reachable_step (c : Config) (s s' : State) (call : Call)
    (ev : list Event) :
  reachable c s -> step c s call ev s' -> reachable c s'.
Proof.
  intros (t & calls & H) Hs. exists t, (calls ++ [call]).
  econstructor; eassumption.
Qed.

Ltac frame_step :=
  eapply reachable_step;
  [|apply step_frame; [vm_compute; auto | vm_compute; discriminate]].

Ltac seeded_start c t :=
  eapply reachable_step;
  [|apply step_start_granted; vm_compute; discriminate];
  eapply reachable_step; [apply (reachable_new _ t)|];
  apply step_initialize with (ev := drawInitialFrame c (seeded_at c t));
  reflexivity.

Lemma quiet_run_reachable : reachable (default_config 100 100) quiet_run.
Proof.
  unfold quiet_run, quiet_run_of.
  do 3 frame_step. seeded_start (default_config 100 100) 0.
Qed.

(** C1 (the code departs from it): on a sampling tick whose buffer holds
    512 samples of -1/2, the largest absolute sample is 1/2 and the claimed
    target height is floor(1/2 * 100 * 1.2) = 60; the loop only looks for
    samples above 0, finds a peak of 0, and pushes a bar of target
    height 0. *)
Theorem peak_ignores_negative_samples :
  let c := default_config 100 100 in
  let e := mkTick 200 (repeat (- (1 # 2)) 512) 5 in
  let array := getFloatTimeDomainData (timeDomainData e) (repeat 0 512) in
  reachable c quiet_run
  /\ samples c e quiet_run = true
  /\ frequencyArray quiet_run = Some (repeat 0 512)
  /\ peak_abs array == 1 # 2
  /\ inject_Z (Qfloor (peak_abs array * height c * (12 # 10))) == 60
  /\ peak array == 0
  /\ map (fun rb => Bar.targetHeight (snd rb))
       (skipn (List.length (bars quiet_run)) (bars (sample c e quiet_run)))
     = [0].
Proof.
  split; [exact quiet_run_reachable|].
  vm_compute. repeat split; reflexivity.
Qed.

(** ** Seeding *)

(** The placeholder that [initialize] creates for index [i]. *)
Definition seed_bar (c : Config) (i : nat) : Bar.t :=
  Bar.mk (inject_Z (Z.of_nat i) * (barWidth c + barGap c))
    0 (barWidth c) 0 0 0 placeholder.

Lemma seed_loop_spec (c : Config) (todo : nat) :
  forall i s,
    seed_loop c todo i s
    = set_bars s
        (bars s
         ++ map (fun k => (allocated s + k, seed_bar c (i + k))%nat)
              (seq 0 todo))
        (allocated s + todo).
Proof.
  induction todo as [|todo IH]; intros i s.
  - simpl. rewrite app_nil_r, Nat.add_0_r. destruct s; reflexivity.
  - cbn [seed_loop]. rewrite IH. unfold set_bars. cbn [bars allocated
      lastDataCollectionTime analyser frequencyArray animationFrameId clock
      pending seq map].
    rewrite <- app_assoc. cbn [app]. rewrite <- seq_shift, map_map.
    rewrite !Nat.add_0_r. f_equal.
    + f_equal. f_equal. apply map_ext. intro k.
      f_equal; [lia | f_equal; lia].
    + lia.
Qed.

Lemma initialize_some (c : Config) (s : State) :
  ~ barWidth c + barGap c == 0 ->
  let n := Z.to_nat (Math.ceil (width c / (barWidth c + barGap c))) in
  let s' :=
    set_bars s
      (map (fun k => (allocated s + k, seed_bar c k)%nat) (seq 0 n))
      (allocated s + n) in
  initialize c s = Some (s', drawInitialFrame c s').
Proof.
  intros Hstep n s'. unfold initialize.
  destruct (Qeq_bool (barWidth c + barGap c) 0) eqn:E.
  - apply Qeq_bool_iff in E. contradiction.
  - rewrite seed_loop_spec. reflexivity.
Qed.

(** Two sizes at which rounding moves the quotient of line 175 across a
    whole number: a surface 9 wide with bars 0.2 wide and 0.7 apart, and a
    surface 52 wide with bars 9.333333333333332 wide and 8 apart. *)
Definition narrow_config : Config :=
  mkConfig 9 100 100 (2 # 10) (7 # 10) 1 "#FFFFFF" "#666666" "#000000"
    (1 # 100) easeInOutCubic 200.

Definition wide_config : Config :=
  mkConfig 52 100 100 (9333333333333332 # 1000000000000000) 8 1
    "#FFFFFF" "#666666" "#000000" (1 # 100) easeInOutCubic 200.

(** C7 as stated fails: on the surface 9 wide the loop of [initialize]
    runs 11 times and pushes 11 placeholders, where
    ceil(9 / (0.2 + 0.7)) is 10; on the surface 52 wide it runs 3 times,
    where the ceiling of the exact quotient is 4. *)
Lemma seed_count_follows_rounding :
  visibleSegmentCount64 narrow_config = Some 11%Z
  /\ Math.ceil (width narrow_config
                / (barWidth narrow_config + barGap narrow_config)) = 10%Z
  /\ List.length
       (bars (seed_loop narrow_config (Z.to_nat 11) 0 (new_state 0)))
     = 11%nat
  /\ visibleSegmentCount64 wide_config = Some 3%Z
  /\ Math.ceil (width wide_config
                / (barWidth wide_config + barGap wide_config)) = 4%Z
  /\ ~ exact_count narrow_config
  /\ ~ exact_count wide_config.
Proof.
  repeat split; try (vm_compute; reflexivity);
    unfold exact_count; vm_compute; discriminate.
Qed.



(** ** Strongly sorted lists: the list facts the timeline needs *)

Section StronglySortedFacts.
Context {A : Type} (R : A -> A -> Prop).

Lemma StronglySorted_filter (f : A -> bool) (l : list A) :
  StronglySorted R l -> StronglySorted R (filter f l).
Proof.
  induction 1 as [|a l Hs IH Hall]; simpl; [constructor|].
  destruct (f a); [|exact IH].
  constructor; [exact IH|].
  apply Forall_forall. intros b Hb. apply filter_In in Hb.
  rewrite Forall_forall in Hall. apply Hall. tauto.
Qed.

Lemma StronglySorted_map (g : A -> A) (l : list A) :
  (forall a b, R a b -> R (g a) (g b)) ->
  StronglySorted R l -> StronglySorted R (map g l).
Proof.
  intro Hg. induction 1 as [|a l Hs IH Hall]; simpl; constructor.
  - exact IH.
  - apply Forall_forall. intros b Hb. apply in_map_iff in Hb.
    destruct Hb as (b0 & <- & Hb0). apply Hg.
    rewrite Forall_forall in Hall. auto.
Qed.

Lemma StronglySorted_snoc (l : list A) (z : A) :
  StronglySorted R l -> Forall (fun a => R a z) l ->
  StronglySorted R (l ++ [z]).
Proof.
  induction 1 as [|a l Hs IH Hall]; intro Hz; simpl.
  - repeat constructor.
  - inversion Hz; subst. constructor; [auto|].
    apply Forall_app. split; [assumption | constructor; auto].
Qed.

Lemma StronglySorted_last (l : list A) (z : A) :
  StronglySorted R (l ++ [z]) -> Forall (fun a => R a z) l.
Proof.
  induction l as [|a l IH]; simpl; intro H; [constructor|].
  apply StronglySorted_inv in H. destruct H as [Hs Hall].
  constructor; [|auto].
  rewrite Forall_forall in Hall. apply Hall.
  apply in_or_app. right. left. reflexivity.
Qed.

Lemma StronglySorted_nth (l : list A) :
  StronglySorted R l ->
  forall i j a b, (i < j)%nat ->
    nth_error l i = Some a -> nth_error l j = Some b -> R a b.
Proof.
  induction 1 as [|x l Hs IH Hall]; intros i j a b Hij Hi Hj.
  - destruct i; discriminate.
  - destruct j as [|j]; [lia|]. simpl in Hj.
    destruct i as [|i]; simpl in Hi.
    + injection Hi as <-. rewrite Forall_forall in Hall.
      apply Hall. eapply nth_error_In; eassumption.
    + apply (IH i j); [lia | assumption | assumption].
Qed.
End StronglySortedFacts.

(** ** Invariants are proved step by step *)

Lemma steps_invariant (c : Config) (P : State -> Prop) :
  (forall s call ev s', P s -> step c s call ev s' -> P s') ->
  forall s calls s', steps c s calls s' -> P s -> P s'.
Proof.
  intros Hstep s calls s' Hsteps. induction Hsteps; intro H0; eauto.
Qed.

Lemma reachable_invariant (c : Config) (P : State -> Prop) :
  (forall t, P (new_state t)) ->
  (forall s call ev s', P s -> step c s call ev s' -> P s') ->
  forall s, reachable c s -> P s.
Proof.
  intros Hnew Hstep s (t & calls & H).
  eapply steps_invariant; eauto.
Qed.

(** ** Spacing *)

(** [b] starts at least one bar width and one gap after [a] starts. *)
Definition spaced (c : Config) (a b : BarRef) : Prop :=
  Bar.x (snd a) + barWidth c + barGap c <= Bar.x (snd b).

Definition spacing_inv (c : Config) (s : State) : Prop :=
  StronglySorted (spaced c) (bars s)
  /\ Forall (fun rb => Bar.width (snd rb) = barWidth c) (bars s).

Lemma grow_x (c : Config) (t : Q) (b : Bar.t) : Bar.x (grow c t b) = Bar.x b.
Proof.
  unfold grow. destruct (Bar.status b); reflexivity.
Qed.

Lemma grow_width (c : Config) (t : Q) (b : Bar.t) :
  Bar.width (grow c t b) = Bar.width b.
Proof.
  unfold grow. destruct (Bar.status b); reflexivity.
Qed.

Lemma grow_status (c : Config) (t : Q) (b : Bar.t) :
  Bar.status (grow c t b) = Bar.status b.
Proof.
  unfold grow. destruct (Bar.status b) eqn:E; simpl; auto.
Qed.

Lemma grow_targetHeight (c : Config) (t : Q) (b : Bar.t) :
  Bar.targetHeight (grow c t b) = Bar.targetHeight b.
Proof.
  unfold grow. destruct (Bar.status b); reflexivity.
Qed.

Lemma grow_created (c : Config) (t : Q) (b : Bar.t) :
  Bar.created (grow c t b) = Bar.created b.
Proof.
  unfold grow. destruct (Bar.status b); reflexivity.
Qed.

Lemma aged_spaced (c : Config) (t : Q) (a b : BarRef) :
  spaced c a b -> spaced c (aged c t a) (aged c t b).
Proof.
  unfold spaced, aged, scroll. simpl. rewrite !grow_x. intro H. lra.
Qed.

Lemma lastX_snoc (c : Config) (l : list BarRef) (rb : BarRef) :
  lastX c (l ++ [rb]) = Bar.x (snd rb).
Proof.
  unfold lastX. rewrite rev_app_distr. destruct rb. reflexivity.
Qed.

(** Room at the edge, as the guard of the sampling block tests it. *)
Lemma samples_room (c : Config) (e : Tick) (s : State) :
  samples c e s = true ->
  barWidth c + barGap c <= width c - lastX c (bars s).
Proof.
  unfold samples. intro H. apply andb_true_iff in H.
  apply Qle_bool_iff. tauto.
Qed.

Lemma samples_gate (c : Config) (e : Tick) (s : State) :
  samples c e s = true ->
  analyser s = true
  /\ frequencyArray s <> None
  /\ timeOffset c < now e - lastDataCollectionTime s.
Proof.
  unfold samples. rewrite !andb_true_iff.
  intros (_ & (Ha & Hf) & Hgate).
  split; [exact Ha|]. split.
  - intro Hnone. rewrite Hnone in Hf. discriminate.
  - apply Qltb_lt. exact Hgate.
Qed.

Lemma start_granted (c : Config) (t : Q) (e : Tick) (s : State) :
  start c (Granted t e) s
  = (fst (animate c e (attach t s)),
     GetUserMedia :: snd (animate c e (attach t s))).
Proof.
  unfold start, soundAllowed. destruct (animate c e (attach t s)).
  reflexivity.
Qed.

Lemma start_denied (c : Config) (err : string) (s : State) :
  start c (Denied err) s
  = (s, [GetUserMedia; ConsoleError "Error getting audio stream:" err]).
Proof.
  reflexivity.
Qed.

Lemma stop_bars (s : State) :
  bars (fst (stop s)) = bars s
  /\ allocated (fst (stop s)) = allocated s
  /\ clock (fst (stop s)) = clock s
  /\ lastDataCollectionTime (fst (stop s)) = lastDataCollectionTime s
  /\ analyser (fst (stop s)) = analyser s.
Proof.
  unfold stop. destruct (animationFrameId s) as [id|]; [|auto].
  destruct (Nat.eqb id 0); simpl; auto.
Qed.

(** Every step either seeds, or runs one tick on a state with the same
    bars, allocation count and a clock that is not ahead of the tick, or
    leaves bars, allocation count, clock and sample time alone. *)
Inductive step_shape (c : Config) (s s' : State) : Prop :=
| shape_seed ev : initialize c s = Some (s', ev) -> step_shape c s s'
| shape_tick s0 e :
    bars s0 = bars s -> allocated s0 = allocated s ->
    clock s <= clock s0 -> clock s0 <= now e ->
    (lastDataCollectionTime s0 = lastDataCollectionTime s
     \/ lastDataCollectionTime s0 = clock s0) ->
    s' = fst (animate c e s0) -> step_shape c s s'
| shape_same :
    bars s' = bars s -> allocated s' = allocated s ->
    clock s' = clock s ->
    lastDataCollectionTime s' = lastDataCollectionTime s ->
    analyser s' = analyser s ->
    step_shape c s s'.

Lemma step_shapes (c : Config) (s s' : State) (call : Call)
    (ev : list Event) :
  step c s call ev s' -> step_shape c s s'.
Proof.
  intro H. destruct H.
  - eapply shape_seed; eassumption.
  - rewrite start_granted. simpl.
    apply shape_tick with (s0 := attach t s) (e := e); simpl; auto.
  - rewrite start_denied. simpl. apply shape_same; reflexivity.
  - destruct (stop_bars s) as (H1 & H2 & H3 & H4 & H5).
    apply shape_same; assumption.
  - apply shape_tick with (s0 := unschedule id s) (e := e); simpl; auto.
    apply Qle_refl.
Qed.

Lemma initialize_bars (c : Config) (s s' : State) (ev : list Event) :
  initialize c s = Some (s', ev) ->
  exists n,
    bars s' = map (fun k => (allocated s + k, seed_bar c k)%nat) (seq 0 n)
    /\ allocated s' = (allocated s + n)%nat
    /\ clock s' = clock s
    /\ lastDataCollectionTime s' = lastDataCollectionTime s
    /\ analyser s' = analyser s.
Proof.
  unfold initialize.
  destruct (Qeq_bool (barWidth c + barGap c) 0).
  - destruct (Qltb 0 (width c)); [discriminate|].
    intro H. injection H as <- _. exists 0%nat. simpl.
    rewrite Nat.add_0_r. auto.
  - intro H. injection H as <- _. rewrite seed_loop_spec. simpl.
    eexists. repeat split; reflexivity.
Qed.

Lemma seeds_spaced (c : Config) (a n : nat) :
  0 < barWidth c + barGap c ->
  forall i,
    StronglySorted (spaced c)
      (map (fun k => ((a + k)%nat, seed_bar c k)) (seq i n)).
Proof.
  intro Hpos. induction n as [|n IH]; intro i; simpl; constructor.
  - apply IH.
  - apply Forall_forall. intros rb Hin. apply in_map_iff in Hin.
    destruct Hin as (k & <- & Hk). apply in_seq in Hk.
    unfold spaced, seed_bar. simpl.
    assert (Hz : inject_Z (Z.of_nat i) + 1 <= inject_Z (Z.of_nat k)).
    { change 1 with (inject_Z 1). rewrite <- inject_Z_plus, <- Zle_Qle. lia. }
    nra.
Qed.

Lemma sample_spacing (c : Config) (e : Tick) (s : State) :
  0 < barWidth c + barGap c ->
  spacing_inv c s -> spacing_inv c (sample c e s).
Proof.
  intros Hpos [Hs Hw]. destruct (samples c e s) eqn:E.
  - destruct (sample_pushes c e s E) as (array & _ & Hb & _).
    pose proof (samples_room c e s E) as Hroom.
    unfold spacing_inv. rewrite Hb. split.
    + apply StronglySorted_snoc; [exact Hs|].
      destruct (bars s) as [|rb0 l0] eqn:Ebars using rev_ind;
        [constructor|].
      rewrite lastX_snoc in Hroom.
      apply Forall_app. split.
      * apply StronglySorted_last in Hs.
        eapply Forall_impl; [|exact Hs].
        intros a Ha. unfold spaced in *. simpl. lra.
      * constructor; [|constructor]. unfold spaced. simpl. lra.
    + apply Forall_app. split; [exact Hw|]. repeat constructor.
  - rewrite (sample_skips c e s E). split; assumption.
Qed.

Lemma animate_spacing (c : Config) (e : Tick) (s : State) :
  0 < barWidth c + barGap c ->
  spacing_inv c s -> spacing_inv c (fst (animate c e s)).
Proof.
  intros Hpos H. apply (sample_spacing c e s Hpos) in H.
  destruct H as [Hs Hw]. unfold spacing_inv. rewrite animate_bars. split.
  - apply StronglySorted_filter, StronglySorted_map; [|exact Hs].
    apply aged_spaced.
  - apply Forall_forall. intros rb Hin. apply filter_In in Hin.
    destruct Hin as [Hin _]. apply in_map_iff in Hin.
    destruct Hin as (rb0 & <- & Hin0). rewrite Forall_forall in Hw.
    unfold aged, scroll. simpl. rewrite grow_width. auto.
Qed.

Lemma reachable_spacing (c : Config) (s : State) :
  0 < barWidth c + barGap c -> reachable c s -> spacing_inv c s.
Proof.
  intro Hpos. apply reachable_invariant.
  - intro t. split; constructor.
  - intros s0 call ev s' Hinv Hstep.
    destruct (step_shapes c s0 s' call ev Hstep)
      as [ev' Hi | s1 e Hb _ _ _ _ -> | Hb _ _ _ _].
    + destruct (initialize_bars c s0 s' ev' Hi) as (n & Hb & _).
      unfold spacing_inv. rewrite Hb. split.
      * apply seeds_spaced. exact Hpos.
      * apply Forall_forall. intros rb Hin. apply in_map_iff in Hin.
        destruct Hin as (k & <- & _). reflexivity.
    + apply animate_spacing; [exact Hpos|].
      unfold spacing_inv in *. rewrite Hb. exact Hinv.
    + unfold spacing_inv in *. rewrite Hb. exact Hinv.
Qed.

(** Positions grow strictly along the array. *)
Definition ascending (bs : list BarRef) : Prop :=
  forall i j a b, (i < j)%nat ->
    nth_error bs i = Some a -> nth_error bs j = Some b ->
    Bar.x (snd a) < Bar.x (snd b).

(** The distance from the trailing edge of a bar to the leading edge of
    the next one. *)
Definition gap (a b : BarRef) : Q :=
  Bar.x (snd b) - (Bar.x (snd a) + Bar.width (snd a)).

Definition gapped (c : Config) (bs : list BarRef) : Prop :=
  forall i a b,
    nth_error bs i = Some a -> nth_error bs (S i) = Some b ->
    barGap c <= gap a b.

(** C2: with a positive [barWidth + barGap], in every reachable state the
    positions are strictly increasing along the array and every two
    adjacent bars (recorded or not) are at least [barGap] apart; a tick
    pushes its recorded bar at the right edge, at the tail, only when the
    newest bar is at least [barWidth + barGap] from that edge; and the
    scroll leaves every gap as it was. *)
Theorem timeline_spacing (c : Config) (s : State) :
  0 < barWidth c + barGap c ->
  reachable c s ->
  ascending (bars s)
  /\ gapped c (bars s)
  /\ (forall e s0, bars s0 = bars s -> samples c e s0 = true ->
        exists l newest b,
          bars s = l ++ [newest]
          /\ barWidth c + barGap c <= width c - Bar.x (snd newest)
          /\ bars (sample c e s0) = bars s ++ [(allocated s0, b)]
          /\ Bar.x b = width c
          /\ Bar.status b = recorded)
  /\ (forall t a b, gap (aged c t a) (aged c t b) == gap a b).
Proof.
  intros Hpos Hr.
  destruct (reachable_spacing c s Hpos Hr) as [Hs Hw].
  split; [|split; [|split]].
  - intros i j a b Hij Hi Hj.
    pose proof (StronglySorted_nth _ _ Hs i j a b Hij Hi Hj) as H.
    unfold spaced in H. lra.
  - intros i a b Hi Hj.
    assert (Hij : (i < S i)%nat) by lia.
    pose proof (StronglySorted_nth _ _ Hs i (S i) a b Hij Hi Hj) as H.
    rewrite Forall_forall in Hw.
    pose proof (Hw a (nth_error_In _ _ Hi)) as Hwa.
    unfold spaced in H. unfold gap. rewrite Hwa. lra.
  - intros e s0 Hsame E.
    pose proof (samples_room c e s0 E) as Hroom.
    destruct (sample_pushes c e s0 E) as (array & _ & Hb & _).
    rewrite Hsame in Hroom, Hb.
    destruct (bars s) as [|newest l _] eqn:Ebars using rev_ind.
    + unfold lastX in Hroom. simpl in Hroom. lra.
    + rewrite lastX_snoc in Hroom.
      exists l, newest. eexists. split; [reflexivity|].
      split; [exact Hroom|]. split; [exact Hb|]. split; reflexivity.
  - intros t a b. unfold gap, aged, scroll. simpl.
    rewrite !grow_x, grow_width. ring.
Qed.

(** ** Heights *)

(** The easing maps the unit interval into itself. *)
Definition unit_range (f : Q -> Q) : Prop :=
  forall p, 0 <= p -> p <= 1 -> 0 <= f p /\ f p <= 1.

Lemma easeInOutCubic_range : unit_range easeInOutCubic.
Proof.
  intros p H0 H1. unfold easeInOutCubic.
  destruct (Qltb p (1 # 2)) eqn:E.
  - apply Qltb_lt in E.
    assert (Hpp : 0 <= p * p) by nra.
    assert (Hpp' : p * p <= 1 # 4) by nra.
    split; nra.
  - apply Qltb_ge in E.
    unfold Math.pow. simpl.
    set (u := - (2) * p + 2).
    assert (Hu0 : 0 <= u) by (unfold u; lra).
    assert (Hu1 : u <= 1) by (unfold u; lra).
    assert (Huu : 0 <= u * u) by nra.
    assert (Huu' : u * u <= 1) by nra.
    assert (Hc0 : 0 <= u * (u * u)) by nra.
    assert (Hc1 : u * (u * u) <= 1) by nra.
    split.
    + apply Qle_minus_iff.
      setoid_replace (1 - u * (u * u) / 2 + - 0)
        with ((2 - u * (u * u)) / 2) by field.
      apply Qle_shift_div_l; lra.
    + assert (H : 0 <= u * (u * u) / 2) by (apply Qle_shift_div_l; lra).
      lra.
Qed.

(** A bar's height lies between 0 and its target, and a recorded bar was
    created no later than the clock reading [t]. *)
Definition bar_ok (t : Q) (rb : BarRef) : Prop :=
  0 <= Bar.height (snd rb)
  /\ Bar.height (snd rb) <= Bar.targetHeight (snd rb)
  /\ (Bar.status (snd rb) = recorded -> Bar.created (snd rb) <= t).

Definition height_inv (s : State) : Prop :=
  Forall (bar_ok (clock s)) (bars s).

Lemma bar_ok_later (t t' : Q) (rb : BarRef) :
  t <= t' -> bar_ok t rb -> bar_ok t' rb.
Proof.
  intros Ht (H1 & H2 & H3). repeat split; try assumption.
  intro Hs. specialize (H3 Hs). lra.
Qed.

Lemma new_bar_target (c : Config) (t : Q) (array : list Q) :
  0 <= height c -> 0 <= Bar.targetHeight (new_bar c t array).
Proof.
  intro Hh. unfold new_bar. cbn [Bar.targetHeight].
  apply floor_nonneg. destruct (peak_spec array) as (Hp & _).
  assert (H0 : 0 <= peak array * height c) by nra. lra.
Qed.

Section Heights.
Variable c : Config.
Hypothesis easing_range : unit_range (easing c).
Hypothesis duration_pos : 0 < expandDuration c.
Hypothesis height_nonneg : 0 <= height c.

Lemma progress_range (t created : Q) :
  created <= t ->
  0 <= Math.min ((t - created) / expandDuration c) 1
  /\ Math.min ((t - created) / expandDuration c) 1 <= 1.
Proof.
  intro H. split; [|apply min_le_r].
  apply min_glb; [|lra].
  apply Qle_shift_div_l; [exact duration_pos | lra].
Qed.

Lemma aged_ok (t : Q) (rb : BarRef) :
  bar_ok t rb -> bar_ok t (aged c t rb).
Proof.
  intros (H1 & H2 & H3). unfold bar_ok, aged, scroll. simpl.
  unfold grow. destruct (Bar.status (snd rb)) eqn:Es; simpl.
  - rewrite Es. repeat split; assumption.
  - rewrite Es. specialize (H3 eq_refl).
    destruct (progress_range t (Bar.created (snd rb)) H3) as [Hp0 Hp1].
    destruct (easing_range _ Hp0 Hp1) as [He0 He1].
    set (p := easing c
                (Math.min ((t - Bar.created (snd rb)) / expandDuration c) 1))
      in *.
    assert (Ht : 0 <= Bar.targetHeight (snd rb)) by lra.
    repeat split; [nra | nra | intros _; exact H3].
Qed.

Lemma new_bar_ok (t : Q) (array : list Q) (r : nat) :
  bar_ok t (r, new_bar c t array).
Proof.
  unfold bar_ok, new_bar.
  cbn [snd Bar.height Bar.targetHeight Bar.created Bar.status].
  split; [apply Qle_refl|]. split.
  - apply (new_bar_target c t array height_nonneg).
  - intros _. apply Qle_refl.
Qed.

Lemma sample_height (e : Tick) (s : State) :
  clock s <= now e ->
  height_inv s -> Forall (bar_ok (now e)) (bars (sample c e s)).
Proof.
  intros Hclock H. unfold height_inv in H.
  assert (H' : Forall (bar_ok (now e)) (bars s)).
  { eapply Forall_impl; [|exact H]. intro rb.
    apply bar_ok_later. exact Hclock. }
  unfold sample. destruct (samples c e s); [|exact H'].
  destruct (frequencyArray s) as [array|]; [|exact H'].
  simpl. apply Forall_app. split; [exact H'|].
  constructor; [apply new_bar_ok | constructor].
Qed.

Lemma animate_height (e : Tick) (s : State) :
  clock s <= now e ->
  height_inv s -> height_inv (fst (animate c e s)).
Proof.
  intros Hclock H. unfold height_inv.
  destruct (animate_fields c e s) as (_ & _ & -> & _).
  rewrite animate_bars.
  pose proof (sample_height e s Hclock H) as Hs.
  apply Forall_forall. intros rb Hin. apply filter_In in Hin.
  destruct Hin as [Hin _]. apply in_map_iff in Hin.
  destruct Hin as (rb0 & <- & Hin0). rewrite Forall_forall in Hs.
  apply aged_ok. auto.
Qed.

Lemma seed_ok (t : Q) (r k : nat) : bar_ok t (r, seed_bar c k).
Proof.
  unfold bar_ok, seed_bar. simpl.
  split; [apply Qle_refl|]. split; [apply Qle_refl | discriminate].
Qed.

Lemma reachable_height (s : State) : reachable c s -> height_inv s.
Proof.
  apply reachable_invariant.
  - intro t. constructor.
  - intros s0 call ev s' Hinv Hstep.
    destruct (step_shapes c s0 s' call ev Hstep)
      as [ev' Hi | s1 e Hb _ Hc1 Hc2 _ -> | Hb _ Hc _ _].
    + destruct (initialize_bars c s0 s' ev' Hi) as (n & Hb & _).
      unfold height_inv. rewrite Hb.
      apply Forall_forall. intros rb Hin. apply in_map_iff in Hin.
      destruct Hin as (k & <- & _). apply seed_ok.
    + apply animate_height; [exact Hc2|].
      unfold height_inv in *. rewrite Hb.
      eapply Forall_impl; [|exact Hinv].
      intro rb. apply bar_ok_later. exact Hc1.
    + unfold height_inv in *. rewrite Hb, Hc. exact Hinv.
Qed.
End Heights.

(** C3: when the easing maps the unit interval into itself (the expand
    duration being positive and the surface height not negative), every bar
    of every reachable state has 0 <= height <= targetHeight; the default
    easing is such a map. *)
Theorem height_bounded (c : Config) (s : State) :
  unit_range (easing c) ->
  0 < expandDuration c ->
  0 <= height c ->
  reachable c s ->
  Forall (fun rb : BarRef =>
            0 <= Bar.height (snd rb)
            /\ Bar.height (snd rb) <= Bar.targetHeight (snd rb)) (bars s)
  /\ unit_range easeInOutCubic.
Proof.
  intros He Hd Hh Hr. split; [|exact easeInOutCubic_range].
  pose proof (reachable_height c He Hd Hh s Hr) as H.
  eapply Forall_impl; [|exact H].
  intros rb (H1 & H2 & _). split; assumption.
Qed.

(** ** Object identity and culling *)

(** Every bar of the array was allocated before now. *)
Definition refs_inv (s : State) : Prop :=
  Forall (fun rb : BarRef => (fst rb < allocated s)%nat) (bars s).

Lemma sample_allocated (c : Config) (e : Tick) (s : State) :
  allocated (sample c e s)
  = (allocated s + if samples c e s then 1 else 0)%nat.
Proof.
  destruct (samples c e s) eqn:E.
  - destruct (sample_pushes c e s E) as (_ & _ & _ & _ & ->). lia.
  - rewrite (sample_skips c e s E). lia.
Qed.

Lemma sample_refs (c : Config) (e : Tick) (s : State) :
  refs_inv s -> refs_inv (sample c e s).
Proof.
  intro H. unfold refs_inv in *. destruct (samples c e s) eqn:E.
  - destruct (sample_pushes c e s E) as (array & _ & -> & _ & ->).
    apply Forall_app. split.
    + eapply Forall_impl; [|exact H]. simpl. intros; lia.
    + constructor; [simpl; lia | constructor].
  - rewrite (sample_skips c e s E). exact H.
Qed.

(** A bar that is in the array after a tick is the aged value of a bar
    that was there (or was pushed) during the tick. *)
Lemma animate_origin (c : Config) (e : Tick) (s : State) (rb' : BarRef) :
  In rb' (bars (fst (animate c e s))) ->
  exists rb,
    In rb (bars (sample c e s))
    /\ rb' = aged c (now e) rb
    /\ onscreen rb' = true.
Proof.
  rewrite animate_bars. intro H. apply filter_In in H.
  destruct H as [H Hon]. apply in_map_iff in H.
  destruct H as (rb & <- & Hin). exists rb. auto.
Qed.

Lemma animate_refs (c : Config) (e : Tick) (s : State) :
  refs_inv s -> refs_inv (fst (animate c e s)).
Proof.
  intro H. apply (sample_refs c e) in H. unfold refs_inv in *.
  destruct (animate_fields c e s) as (_ & _ & _ & -> & _).
  apply Forall_forall. intros rb' Hin.
  destruct (animate_origin c e s rb' Hin) as (rb & Hin0 & -> & _).
  rewrite Forall_forall in H. exact (H rb Hin0).
Qed.

Lemma step_refs (c : Config) (s s' : State) (call : Call) (ev : list Event) :
  refs_inv s -> step c s call ev s' ->
  refs_inv s' /\ (allocated s <= allocated s')%nat.
Proof.
  intros Hinv Hstep.
  destruct (step_shapes c s s' call ev Hstep)
    as [ev' Hi | s1 e Hb Ha _ _ _ -> | Hb Ha _ _ _].
  - destruct (initialize_bars c s s' ev' Hi) as (n & Hb & Ha & _).
    split; [|lia]. unfold refs_inv. rewrite Hb, Ha.
    apply Forall_forall. intros rb Hin. apply in_map_iff in Hin.
    destruct Hin as (k & <- & Hk). apply in_seq in Hk. simpl. lia.
  - assert (H1 : refs_inv s1).
    { unfold refs_inv in *. rewrite Hb, Ha. exact Hinv. }
    split; [apply animate_refs; exact H1|].
    destruct (animate_fields c e s1) as (_ & _ & _ & -> & _).
    rewrite sample_allocated. lia.
  - split; [|lia]. unfold refs_inv in *. rewrite Hb, Ha. exact Hinv.
Qed.

Lemma reachable_refs (c : Config) (s : State) : reachable c s -> refs_inv s.
Proof.
  apply reachable_invariant.
  - intro t. constructor.
  - intros s0 call ev s' Hinv Hstep.
    exact (proj1 (step_refs c s0 s' call ev Hinv Hstep)).
Qed.

(** An object that is allocated and absent from the array stays absent. *)
Definition gone (r : nat) (s : State) : Prop :=
  (r < allocated s)%nat /\ ~ In r (map fst (bars s)).

Lemma step_gone (c : Config) (r : nat) (s s' : State) (call : Call)
    (ev : list Event) :
  refs_inv s /\ gone r s -> step c s call ev s' -> refs_inv s' /\ gone r s'.
Proof.
  intros [Hinv [Hlt Hout]] Hstep.
  destruct (step_refs c s s' call ev Hinv Hstep) as [Hinv' Hmono].
  split; [exact Hinv'|]. split; [lia|].
  destruct (step_shapes c s s' call ev Hstep)
    as [ev' Hi | s1 e Hb Ha _ _ _ -> | Hb Ha _ _ _].
  - destruct (initialize_bars c s s' ev' Hi) as (n & Hb & _).
    rewrite Hb, map_map. simpl. intro Hin. apply in_map_iff in Hin.
    destruct Hin as (k & Hk & _). lia.
  - intro Hin. apply in_map_iff in Hin. destruct Hin as (rb' & <- & Hin).
    destruct (animate_origin c e s1 rb' Hin) as (rb & Hin0 & -> & _).
    simpl in *. unfold sample in Hin0.
    destruct (samples c e s1); [destruct (frequencyArray s1)|].
    + simpl in Hin0. apply in_app_or in Hin0.
      destruct Hin0 as [Hin0 | [<- | []]].
      * apply Hout. rewrite <- Hb. apply in_map. exact Hin0.
      * simpl in Hlt. lia.
    + apply Hout. rewrite <- Hb. apply in_map. exact Hin0.
    + apply Hout. rewrite <- Hb. apply in_map. exact Hin0.
  - rewrite Hb. exact Hout.
Qed.

Lemma aged_onscreen (c : Config) (t : Q) (rb : BarRef) :
  onscreen (aged c t rb) = true
  <-> 0 <= Bar.x (snd rb) - scrollSpeed c + Bar.width (snd rb).
Proof.
  unfold onscreen, offscreen, aged, scroll. simpl.
  rewrite grow_x, grow_width, negb_true_iff. apply Qltb_ge.
Qed.

(** C5: a tick lowers every bar's position by [scrollSpeed] and keeps
    exactly the bars whose trailing edge [x + width] is then not below 0;
    and an object that a step removes from the array is in the array of no
    later state. *)
Theorem cull_exact (c : Config) (s : State) :
  reachable c s ->
  (forall e s0,
      let live := bars (sample c e s0) in
      let after := bars (fst (animate c e s0)) in
      after = filter onscreen (map (aged c (now e)) live)
      /\ (forall rb, In rb live ->
            Bar.x (snd (aged c (now e) rb))
            = Bar.x (snd rb) - scrollSpeed c
            /\ (In (aged c (now e) rb) after
                <-> 0 <= Bar.x (snd rb) - scrollSpeed c + Bar.width (snd rb)))
      /\ (forall rb', In rb' after ->
            0 <= Bar.x (snd rb') + Bar.width (snd rb')
            /\ exists rb, In rb live /\ rb' = aged c (now e) rb))
  /\ (forall call ev s1 r b,
        step c s call ev s1 ->
        In (r, b) (bars s) -> ~ In r (map fst (bars s1)) ->
        forall calls s2, steps c s1 calls s2 -> ~ In r (map fst (bars s2))).
Proof.
  intro Hr. split.
  - intros e s0 live after. subst live after.
    split; [apply animate_bars|]. split.
    + intros rb Hin. split.
      * unfold aged, scroll. simpl. rewrite grow_x. reflexivity.
      * rewrite animate_bars, filter_In, aged_onscreen. split; [tauto|].
        intro H. split; [|exact H]. apply in_map. exact Hin.
    + intros rb' Hin.
      destruct (animate_origin c e s0 rb' Hin) as (rb & Hin0 & -> & Hon).
      split; [|exists rb; auto].
      unfold onscreen, offscreen in Hon. rewrite negb_true_iff in Hon.
      apply Qltb_ge in Hon. exact Hon.
  - intros call ev s1 r b Hstep Hin Hout calls s2 Hsteps.
    pose proof (reachable_refs c s Hr) as Hinv.
    destruct (step_refs c s s1 call ev Hinv Hstep) as [Hinv1 Hmono].
    assert (Hlt : (r < allocated s)%nat).
    { unfold refs_inv in Hinv. rewrite Forall_forall in Hinv.
      exact (Hinv (r, b) Hin). }
    assert (H1 : refs_inv s1 /\ gone r s1).
    { split; [exact Hinv1|]. split; [lia | exact Hout]. }
    pose proof (steps_invariant c (fun x => refs_inv x /\ gone r x)
                  (fun x call' ev' x' => step_gone c r x x' call' ev')
                  s1 calls s2 Hsteps H1) as [_ [_ H2]].
    exact H2.
Qed.

(** No object is in the array twice. *)
Definition unique_inv (s : State) : Prop :=
  refs_inv s /\ NoDup (map fst (bars s)).

Lemma NoDup_refs_filter (f : BarRef -> bool) (l : list BarRef) :
  NoDup (map fst l) -> NoDup (map fst (filter f l)).
Proof.
  induction l as [|a l IH]; simpl; intro H; [constructor|].
  inversion H as [|x l' Hx Hl]; subst.
  destruct (f a); simpl; [|auto].
  constructor; [|auto].
  intro Hin. apply Hx. apply in_map_iff in Hin.
  destruct Hin as (rb & Hfst & Hrb). apply filter_In in Hrb.
  rewrite <- Hfst. apply in_map. tauto.
Qed.

Lemma NoDup_refs_same (l : list BarRef) (r : nat) (b b' : Bar.t) :
  NoDup (map fst l) -> In (r, b) l -> In (r, b') l -> b = b'.
Proof.
  induction l as [|a l IH]; simpl; intros H H1 H2; [contradiction|].
  inversion H as [|x l' Hx Hl]; subst.
  destruct H1 as [-> | H1], H2 as [E | H2].
  - congruence.
  - exfalso. apply Hx. simpl. change r with (fst (r, b')).
    apply in_map. exact H2.
  - subst a. exfalso. apply Hx. simpl. change r with (fst (r, b)).
    apply in_map. exact H1.
  - auto.
Qed.

Lemma step_unique (c : Config) (s s' : State) (call : Call)
    (ev : list Event) :
  unique_inv s -> step c s call ev s' -> unique_inv s'.
Proof.
  intros [Hinv Hnd] Hstep.
  split; [exact (proj1 (step_refs c s s' call ev Hinv Hstep))|].
  destruct (step_shapes c s s' call ev Hstep)
    as [ev' Hi | s1 e Hb Ha _ _ _ -> | Hb Ha _ _ _].
  - destruct (initialize_bars c s s' ev' Hi) as (n & Hb & _).
    rewrite Hb, map_map. simpl.
    apply Finite.Injective_map_NoDup; [|apply seq_NoDup].
    intros i j Hij. lia.
  - rewrite animate_bars. apply NoDup_refs_filter.
    rewrite map_map. simpl.
    change (fun x : BarRef => fst x) with (@fst nat Bar.t).
    unfold sample.
    destruct (samples c e s1); [destruct (frequencyArray s1)|];
      try (rewrite Hb; exact Hnd).
    simpl. rewrite map_app. simpl.
    apply NoDup_app_remove_l with (l := []). simpl.
    apply Permutation_NoDup with (l := allocated s1 :: map fst (bars s1)).
    + apply Permutation_cons_append.
    + constructor; [|rewrite Hb; exact Hnd].
      intro Hin. apply in_map_iff in Hin. destruct Hin as (rb & Hf & Hin).
      unfold refs_inv in Hinv. rewrite Forall_forall in Hinv.
      rewrite Hb in Hin. specialize (Hinv rb Hin). lia.
  - rewrite Hb. exact Hnd.
Qed.

Lemma reachable_unique (c : Config) (s : State) :
  reachable c s -> unique_inv s.
Proof.
  apply reachable_invariant.
  - intro t. split; constructor.
  - intros s0 call ev s'. apply step_unique.
Qed.

(** ** Growth *)

(** The easing does not decrease on the unit interval. *)
Definition monotone_unit (f : Q -> Q) : Prop :=
  forall p q, 0 <= p -> p <= q -> q <= 1 -> f p <= f q.

(** The progress of a bar created at [t0], at a tick at [t]. *)
Definition progress (c : Config) (t0 t : Q) : Q :=
  Math.min ((t - t0) / expandDuration c) 1.

(** A recorded bar's height is its target scaled by the eased progress at
    the latest tick; it was created no later than that tick, with a target
    that is not negative. *)
Definition grown (c : Config) (t : Q) (rb : BarRef) : Prop :=
  Bar.status (snd rb) = recorded ->
  Bar.height (snd rb)
  = Bar.targetHeight (snd rb)
    * easing c (progress c (Bar.created (snd rb)) t)
  /\ Bar.created (snd rb) <= t
  /\ 0 <= Bar.targetHeight (snd rb).

Definition growth_inv (c : Config) (s : State) : Prop :=
  Forall (grown c (clock s)) (bars s).

Lemma aged_grown (c : Config) (t t' : Q) (rb : BarRef) :
  t <= t' ->
  (Bar.status (snd rb) = recorded ->
   Bar.created (snd rb) <= t /\ 0 <= Bar.targetHeight (snd rb)) ->
  grown c t' (aged c t' rb).
Proof.
  intros Ht H. unfold grown, aged, scroll, Bar.set_x.
  cbn [snd fst Bar.status Bar.height Bar.targetHeight Bar.created].
  rewrite grow_status, grow_targetHeight, grow_created.
  intro Hs. destruct (H Hs) as [H1 H2]. clear H.
  split; [|split; [lra | exact H2]].
  unfold grow. rewrite Hs. reflexivity.
Qed.

Lemma animate_growth (c : Config) (e : Tick) (s : State) (t : Q) :
  0 <= height c ->
  t <= now e ->
  Forall (grown c t) (bars s) -> growth_inv c (fst (animate c e s)).
Proof.
  intros Hh Hclock H. unfold growth_inv.
  destruct (animate_fields c e s) as (_ & _ & -> & _).
  apply Forall_forall. intros rb' Hin.
  destruct (animate_origin c e s rb' Hin) as (rb & Hin0 & -> & _).
  apply aged_grown with (t := now e); [apply Qle_refl|].
  intro Hs. rewrite Forall_forall in H. unfold sample in Hin0.
  assert (Hold : In rb (bars s) ->
                 Bar.created (snd rb) <= now e
                 /\ 0 <= Bar.targetHeight (snd rb)).
  { intro Hin1. destruct (H rb Hin1 Hs) as (_ & H1 & H2). clear H.
    split; [lra | exact H2]. }
  destruct (samples c e s); [destruct (frequencyArray s)|]; auto.
  simpl in Hin0. apply in_app_or in Hin0.
  destruct Hin0 as [Hin0 | [<- | []]]; [auto|].
  cbn [snd]. split.
  - unfold new_bar. cbn [Bar.created]. apply Qle_refl.
  - apply new_bar_target. exact Hh.
Qed.

Lemma step_clock (c : Config) (s s' : State) (call : Call) (ev : list Event) :
  step c s call ev s' -> clock s <= clock s'.
Proof.
  intro Hstep.
  destruct (step_shapes c s s' call ev Hstep)
    as [ev' Hi | s1 e _ _ Hc1 Hc2 _ -> | _ _ Hc _ _].
  - destruct (initialize_bars c s s' ev' Hi) as (n & _ & _ & -> & _).
    apply Qle_refl.
  - destruct (animate_fields c e s1) as (_ & _ & -> & _). lra.
  - rewrite Hc. apply Qle_refl.
Qed.

Lemma steps_clock (c : Config) (s s' : State) (calls : list Call) :
  steps c s calls s' -> clock s <= clock s'.
Proof.
  induction 1 as [|s s1 s2 calls call ev _ IH Hstep]; [apply Qle_refl|].
  pose proof (step_clock c s1 s2 call ev Hstep). lra.
Qed.

Lemma reachable_growth (c : Config) (s : State) :
  0 <= height c -> reachable c s -> growth_inv c s.
Proof.
  intro Hh. apply reachable_invariant.
  - intro t. constructor.
  - intros s0 call ev s' Hinv Hstep.
    destruct (step_shapes c s0 s' call ev Hstep)
      as [ev' Hi | s1 e Hb _ Hc1 Hc2 _ -> | Hb _ Hc _ _].
    + destruct (initialize_bars c s0 s' ev' Hi) as (n & Hb & _).
      unfold growth_inv. rewrite Hb.
      apply Forall_forall. intros rb Hin. apply in_map_iff in Hin.
      destruct Hin as (k & <- & _). intro Hs. discriminate.
    + apply animate_growth with (t := clock s0); [exact Hh | lra |].
      rewrite Hb. exact Hinv.
    + unfold growth_inv in *. rewrite Hb, Hc. exact Hinv.
Qed.

(** Along a run an object keeps its creation time, target and status. *)
Definition same_bar (b b' : Bar.t) : Prop :=
  Bar.created b' = Bar.created b
  /\ Bar.targetHeight b' = Bar.targetHeight b
  /\ Bar.status b' = Bar.status b.

Definition keeps (r : nat) (b : Bar.t) (s : State) : Prop :=
  refs_inv s /\ (r < allocated s)%nat
  /\ forall b', In (r, b') (bars s) -> same_bar b b'.

Lemma step_keeps (c : Config) (r : nat) (b : Bar.t) (s s' : State)
    (call : Call) (ev : list Event) :
  keeps r b s -> step c s call ev s' -> keeps r b s'.
Proof.
  intros (Hinv & Hlt & Hsame) Hstep.
  destruct (step_refs c s s' call ev Hinv Hstep) as [Hinv' Hmono].
  split; [exact Hinv'|]. split; [lia|].
  intros b' Hin.
  destruct (step_shapes c s s' call ev Hstep)
    as [ev' Hi | s1 e Hb Ha _ _ _ -> | Hb Ha _ _ _].
  - destruct (initialize_bars c s s' ev' Hi) as (n & Hb & _).
    rewrite Hb in Hin. apply in_map_iff in Hin.
    destruct Hin as (k & Hk & _). injection Hk as Hk _. lia.
  - destruct (animate_origin c e s1 _ Hin) as ([r0 b0] & Hin0 & Heq & _).
    unfold aged in Heq. simpl in Heq. injection Heq as <- ->.
    assert (Hb0 : same_bar b b0).
    { unfold sample in Hin0.
      destruct (samples c e s1); [destruct (frequencyArray s1)|];
        try (apply Hsame; rewrite <- Hb; exact Hin0).
      simpl in Hin0. apply in_app_or in Hin0.
      destruct Hin0 as [Hin0 | [Heq | []]].
      - apply Hsame. rewrite <- Hb. exact Hin0.
      - injection Heq as Heq _. lia. }
    destruct Hb0 as (H1 & H2 & H3). unfold same_bar, scroll. simpl.
    rewrite grow_created, grow_targetHeight, grow_status. auto.
  - apply Hsame. rewrite <- Hb. exact Hin.
Qed.

Lemma reachable_steps (c : Config) (s s' : State) (calls : list Call) :
  reachable c s -> steps c s calls s' -> reachable c s'.
Proof.
  intros Hr Hs. induction Hs as [|s s1 s2 calls call ev _ IH Hstep];
    [exact Hr|].
  eapply reachable_step; [apply IH; exact Hr | exact Hstep].
Qed.

Lemma progress_mono (c : Config) (t0 t t' : Q) :
  0 < expandDuration c -> t <= t' ->
  progress c t0 t <= progress c t0 t'.
Proof.
  intros Hd Ht. unfold progress. apply min_mono. unfold Qdiv.
  pose proof (Qinv_lt_0_compat _ Hd) as Hi.
  set (i := / expandDuration c) in *. nra.
Qed.

Lemma progress_done (c : Config) (t0 t : Q) :
  0 < expandDuration c -> t0 + expandDuration c <= t ->
  1 <= (t - t0) / expandDuration c.
Proof.
  intros Hd Ht. apply Qle_shift_div_l; [exact Hd | lra].
Qed.

(** A linear easing on a 100 x 100 canvas, the other options default. *)
Definition linear_config : Config :=
  mkConfig 100 100 100 3 10 1 "#FFFFFF" "#666666" "#000000" (1 # 100)
    (fun p => p) 200.

(** The quiet run, then a frame at time 200 whose buffer peaks at 0.42
    (a target of floor(0.42 * 100 * 1.2) = 50), then a frame at [t]. *)
Definition loud_run (t : Q) : State :=
  let c := linear_config in
  let s5 := fst (animate c (mkTick 200 [42 # 100] 5)
                   (unschedule 4 (quiet_run_of c))) in
  fst (animate c (mkTick t [] 6) (unschedule 5 s5)).

Definition is_recorded (rb : BarRef) : bool :=
  Status_eqb (Bar.status (snd rb)) recorded.

(** Target and height, in lowest terms, of the recorded bars. *)
Definition recorded_heights (s : State) : list (Q * Q) :=
  map (fun rb : BarRef =>
         (Qred (Bar.targetHeight (snd rb)), Qred (Bar.height (snd rb))))
    (filter is_recorded (bars s)).

Lemma loud_run_reachable : reachable linear_config (loud_run 300).
Proof.
  unfold loud_run, quiet_run_of.
  do 5 frame_step. seeded_start linear_config 0.
Qed.

(** C4: let the expand duration D be positive, the surface height not
    negative, and the easing non-decreasing on the unit interval with
    easing(1) = 1.  A tick sets the clock to its time; in a reachable state
    a recorded bar created at t0 has height
    target * easing(min((clock - t0) / D, 1)); from t0 + D on the height is
    the target; and in every later state the same object has the same
    target and a height that is not smaller.  With the linear easing,
    D = 200 and a bar of target 50 sampled at t0 = 200, the height is 25
    after a tick at 300 and 50 after a tick at 400 or at 1000. *)
Theorem growth_converges (c : Config) (s : State) (r : nat) (b : Bar.t) :
  0 < expandDuration c ->
  0 <= height c ->
  monotone_unit (easing c) ->
  easing c 1 == 1 ->
  reachable c s ->
  In (r, b) (bars s) ->
  Bar.status b = recorded ->
  (forall e s0, clock (fst (animate c e s0)) = now e)
  /\ (Bar.created b <= clock s
      /\ Bar.height b
         = Bar.targetHeight b
           * easing c (progress c (Bar.created b) (clock s)))
  /\ (Bar.created b + expandDuration c <= clock s ->
      Bar.height b == Bar.targetHeight b)
  /\ (forall calls s' b',
        steps c s calls s' -> In (r, b') (bars s') ->
        Bar.created b' = Bar.created b
        /\ Bar.targetHeight b' = Bar.targetHeight b
        /\ clock s <= clock s'
        /\ Bar.height b <= Bar.height b')
  /\ (recorded_heights (loud_run 300) = [(50, 25)]
      /\ recorded_heights (loud_run 400) = [(50, 50)]
      /\ recorded_heights (loud_run 1000) = [(50, 50)]).
Proof.
  intros Hd Hh Hmono Hone Hr Hin Hs.
  pose proof (reachable_growth c s Hh Hr) as Hg.
  unfold growth_inv in Hg. rewrite Forall_forall in Hg.
  destruct (Hg (r, b) Hin Hs) as (Hheight & Hcreated & Htarget).
  cbn [snd] in Hheight, Hcreated, Htarget.
  assert (Heq1 : forall p, 1 <= p -> p <= 1 -> easing c p == 1).
  { intros p H1 H2. apply Qle_antisym.
    - apply Qle_trans with (easing c 1); [|rewrite Hone; apply Qle_refl].
      apply Hmono; clear - H1 H2; lra.
    - apply Qle_trans with (easing c 1); [rewrite Hone; apply Qle_refl|].
      apply Hmono; clear - H1 H2; lra. }
  split; [intros e s0; exact (proj1 (proj2 (proj2 (animate_fields c e s0))))|].
  split; [split; assumption|]. split; [|split].
  - intro Hdone. rewrite Hheight.
    pose proof (progress_done c _ _ Hd Hdone) as H1.
    assert (Hp : easing c (progress c (Bar.created b) (clock s)) == 1).
    { apply Heq1; unfold progress; [|apply min_le_r].
      apply min_glb; [exact H1 | apply Qle_refl]. }
    rewrite Hp. ring.
  - intros calls s' b' Hsteps Hin'.
    pose proof (reachable_steps c s s' calls Hr Hsteps) as Hr'.
    pose proof (steps_clock c s s' calls Hsteps) as Hclock.
    destruct (reachable_unique c s Hr) as [Hrefs Hnd].
    assert (Hk : keeps r b s).
    { split; [exact Hrefs|]. split.
      - unfold refs_inv in Hrefs. rewrite Forall_forall in Hrefs.
        exact (Hrefs (r, b) Hin).
      - intros b0 Hin0.
        rewrite (NoDup_refs_same (bars s) r b0 b Hnd Hin0 Hin).
        repeat split. }
    pose proof (steps_invariant c (keeps r b)
                  (fun x call ev x' => step_keeps c r b x x' call ev)
                  s calls s' Hsteps Hk) as (_ & _ & Hsame).
    destruct (Hsame b' Hin') as (Hc' & Ht' & Hs').
    split; [exact Hc'|]. split; [exact Ht'|]. split; [exact Hclock|].
    pose proof (reachable_growth c s' Hh Hr') as Hg'.
    unfold growth_inv in Hg'. rewrite Forall_forall in Hg'.
    assert (Hrec' : Bar.status b' = recorded) by congruence.
    destruct (Hg' (r, b') Hin' Hrec') as (Hheight' & _ & _).
    cbn [snd] in Hheight'. rewrite Hheight, Hheight', Hc', Ht'.
    destruct (progress_range c Hd (clock s) (Bar.created b) Hcreated)
      as [Hp0 _].
    pose proof (progress_mono c (Bar.created b) _ _ Hd Hclock) as Hpm.
    assert (Hp1 : progress c (Bar.created b) (clock s') <= 1)
      by apply min_le_r.
    pose proof (Hmono _ _ Hp0 Hpm Hp1) as He.
    rewrite !(Qmult_comm (Bar.targetHeight b)).
    apply Qmult_le_compat_r; assumption.
  - vm_compute. auto.
Qed.

Definition loud_bar : Bar.t :=
  snd (last (bars (loud_run 300)) (0%nat, seed_bar linear_config 0)).

Lemma growth_converges_witness :
  (Bar.created loud_bar <= clock (loud_run 300)
   /\ Bar.height loud_bar
      = Bar.targetHeight loud_bar
        * easing linear_config
            (progress linear_config (Bar.created loud_bar)
               (clock (loud_run 300))))
  /\ Bar.status loud_bar = recorded.
Proof.
  assert (Hin : In (8%nat, loud_bar) (bars (loud_run 300))).
  { vm_compute. repeat (first [left; reflexivity | right]). }
  assert (Hs : Bar.status loud_bar = recorded) by reflexivity.
  assert (Hm : monotone_unit (easing linear_config)).
  { intros p q _ H _. exact H. }
  destruct (growth_converges linear_config (loud_run 300) 8 loud_bar)
    as (_ & H1 & _); try assumption.
  - reflexivity.
  - discriminate.
  - reflexivity.
  - exact loud_run_reachable.
  - split; assumption.
Defined.

(** ** The sample gate *)

(** The number of bars a tick creates. *)
Definition produced (c : Config) (e : Tick) (s : State) : nat :=
  allocated (fst (animate c e s)) - allocated s.

Lemma produced_spec (c : Config) (e : Tick) (s : State) :
  produced c e s = if samples c e s then 1%nat else 0%nat.
Proof.
  unfold produced.
  destruct (animate_fields c e s) as (_ & _ & _ & -> & _).
  rewrite sample_allocated. destruct (samples c e s); lia.
Qed.

Lemma samples_unschedule (c : Config) (e : Tick) (id : nat) (s : State) :
  samples c e (unschedule id s) = samples c e s.
Proof.
  reflexivity.
Qed.

(** After a tick that samples, the sample time is the tick's time. *)
Lemma sampled_time (c : Config) (e : Tick) (s : State) :
  samples c e s = true ->
  lastDataCollectionTime (fst (animate c e s)) = now e.
Proof.
  intro H. destruct (animate_fields c e s) as (-> & _).
  destruct (sample_pushes c e s H) as (_ & _ & _ & -> & _). reflexivity.
Qed.

(** From a sample at time [t1] on, neither the sample time nor the clock
    is before [t1]. *)
Definition since (t1 : Q) (s : State) : Prop :=
  t1 <= lastDataCollectionTime s /\ t1 <= clock s.

Lemma step_since (c : Config) (t1 : Q) (s s' : State) (call : Call)
    (ev : list Event) :
  since t1 s -> step c s call ev s' -> since t1 s'.
Proof.
  intros [Hl Hc] Hstep. unfold since.
  destruct (step_shapes c s s' call ev Hstep)
    as [ev' Hi | s1 e _ _ Hc1 Hc2 Hlast -> | _ _ Hc' Hl' _].
  - destruct (initialize_bars c s s' ev' Hi) as (n & _ & _ & -> & -> & _).
    split; assumption.
  - destruct (animate_fields c e s1) as (-> & _ & -> & _).
    split; [|lra]. unfold sample.
    destruct (samples c e s1); [destruct (frequencyArray s1)|]; simpl;
      try lra; destruct Hlast as [-> | ->]; lra.
  - rewrite Hc', Hl'. split; assumption.
Qed.

(** A configuration that scrolls a whole bar pitch per tick: the default
    options with [scrollSpeed: 13] on a 100 x 100 canvas. *)
Definition brisk_config : Config :=
  mkConfig 100 100 100 3 10 13 "#FFFFFF" "#666666" "#000000" (1 # 100)
    easeInOutCubic 200.

(** Seeded and started at time -300, one frame run. *)
Definition brisk_start : State :=
  fst (start brisk_config (Granted (-300) (mkTick (-300) (repeat 0 512) 1))
         (seeded_at brisk_config (-300))).

Lemma brisk_start_reachable : reachable brisk_config brisk_start.
Proof.
  unfold brisk_start. seeded_start brisk_config (-300).
Qed.

(** C6: a tick samples only when [now - lastDataCollectionTime] strictly
    exceeds [timeOffset], and creates one recorded bar when it samples and
    none otherwise.  So two consecutive ticks at most [timeOffset] apart
    create at most one bar, and in any run two sampling ticks are more than
    [timeOffset] apart.  With an interval of 100 the ticks at 0 and 50
    create at most one bar; a third tick at 150 can create a second. *)
Theorem sample_gate (c : Config) :
  (forall e s, samples c e s = true ->
     timeOffset c < now e - lastDataCollectionTime s)
  /\ (forall e s, produced c e s = if samples c e s then 1%nat else 0%nat)
  /\ (forall e1 e2 id s,
        now e2 - now e1 <= timeOffset c ->
        let s1 := fst (animate c e1 s) in
        (produced c e1 s + produced c e2 (unschedule id s1) <= 1)%nat)
  /\ (forall e1 s calls s2 id e2,
        samples c e1 s = true ->
        steps c (fst (animate c e1 s)) calls s2 ->
        samples c e2 (unschedule id s2) = true ->
        timeOffset c < now e2 - now e1)
  /\ (forall e1 e2 id s,
        timeOffset c = 100 -> now e1 = 0 -> now e2 = 50 ->
        let s1 := fst (animate c e1 s) in
        (produced c e1 s + produced c e2 (unschedule id s1) <= 1)%nat)
  /\ (let c := brisk_config in
      let e1 := mkTick 0 (repeat 0 512) 2 in
      let e2 := mkTick 50 (repeat 0 512) 3 in
      let e3 := mkTick 150 (repeat 0 512) 4 in
      let s1 := fst (animate c e1 (unschedule 1 brisk_start)) in
      let s2 := fst (animate c e2 (unschedule 2 s1)) in
      reachable c brisk_start
      /\ timeOffset c = 100
      /\ produced c e1 (unschedule 1 brisk_start) = 1%nat
      /\ produced c e2 (unschedule 2 s1) = 0%nat
      /\ produced c e3 (unschedule 3 s2) = 1%nat).
Proof.
  assert (Hgate : forall e s, samples c e s = true ->
                    timeOffset c < now e - lastDataCollectionTime s).
  { intros e s H. exact (proj2 (proj2 (samples_gate c e s H))). }
  assert (Hpair : forall e1 e2 id s,
             now e2 - now e1 <= timeOffset c ->
             (produced c e1 s
              + produced c e2 (unschedule id (fst (animate c e1 s))) <= 1)%nat).
  { intros e1 e2 id s Hclose. rewrite !produced_spec, samples_unschedule.
    destruct (samples c e1 s) eqn:E1; [|destruct (samples _ e2 _); lia].
    destruct (samples c e2 (fst (animate c e1 s))) eqn:E2; [|lia].
    exfalso. apply Hgate in E2. rewrite (sampled_time c e1 s E1) in E2.
    clear - E2 Hclose. lra. }
  split; [exact Hgate|]. split; [apply produced_spec|].
  split; [exact Hpair|]. split; [|split].
  - intros e1 s calls s2 id e2 E1 Hsteps E2.
    assert (H1 : since (now e1) (fst (animate c e1 s))).
    { unfold since. rewrite (sampled_time c e1 s E1).
      destruct (animate_fields c e1 s) as (_ & _ & -> & _).
      split; apply Qle_refl. }
    pose proof (steps_invariant c (since (now e1))
                  (fun x call ev x' => step_since c (now e1) x x' call ev)
                  _ calls s2 Hsteps H1) as [Hl _].
    rewrite samples_unschedule in E2. apply Hgate in E2.
    clear - E2 Hl. lra.
  - intros e1 e2 id s Hoff H1 H2. apply Hpair.
    rewrite Hoff, H1, H2. discriminate.
  - split; [exact brisk_start_reachable|]. vm_compute. auto.
Qed.

(** ** A run with bars of every kind *)

(** From [brisk_start]: a frame at time 0 that samples silence, a frame
    at 50, a frame at 150 that samples a buffer peaking at 0.42, and a
    frame at 200.  The start tick and the frame at 0 each scroll a
    placeholder off the surface. *)
Definition brisk1 : State :=
  fst (animate brisk_config (mkTick 0 (repeat 0 512) 2)
         (unschedule 1 brisk_start)).

Definition brisk2 : State :=
  fst (animate brisk_config (mkTick 50 (repeat 0 512) 3)
         (unschedule 2 brisk1)).

Definition brisk3 : State :=
  fst (animate brisk_config (mkTick 150 [42 # 100] 4)
         (unschedule 3 brisk2)).

Definition brisk4 : State :=
  fst (animate brisk_config (mkTick 200 [] 5) (unschedule 4 brisk3)).

(** The bar at index [i] of [brisk4]: placeholders at 0, 1 and 2, the bar
    recorded on silence at 3, the bar recorded at 150 at 4. *)
Definition brisk_bar (i : nat) : BarRef :=
  nth i (bars brisk4) (0%nat, seed_bar brisk_config 0).

Lemma brisk4_reachable : reachable brisk_config brisk4.
Proof.
  unfold brisk4, brisk3, brisk2, brisk1.
  do 4 frame_step. exact brisk_start_reachable.
Qed.

Lemma brisk4_bars :
  map (fun rb : BarRef =>
         (fst rb, Bar.status (snd rb), Qred (Bar.x (snd rb)),
          Qred (Bar.height (snd rb)), Qred (Bar.targetHeight (snd rb))))
    (bars brisk4)
  = [(5%nat, placeholder, 0, 0, 0); (6%nat, placeholder, 13, 0, 0);
     (7%nat, placeholder, 26, 0, 0); (8%nat, recorded, 48, 0, 0);
     (9%nat, recorded, 74, 25 # 8, 50)].
Proof.
  vm_compute. reflexivity.
Qed.

Lemma timeline_spacing_witness :
  ascending (bars brisk4)
  /\ gapped brisk_config (bars brisk4)
  /\ (Bar.status (snd (brisk_bar 3)) = recorded
      /\ Bar.status (snd (brisk_bar 4)) = recorded
      /\ barGap brisk_config <= gap (brisk_bar 3) (brisk_bar 4))
  /\ (exists l newest b,
        bars brisk4 = l ++ [newest]
        /\ barWidth brisk_config + barGap brisk_config
           <= width brisk_config - Bar.x (snd newest)
        /\ bars (sample brisk_config (mkTick 310 (repeat (1 # 2) 512) 6)
                   (unschedule 5 brisk4))
           = bars brisk4 ++ [(allocated (unschedule 5 brisk4), b)]
        /\ Bar.x b = width brisk_config
        /\ Bar.status b = recorded).
Proof.
  destruct (timeline_spacing brisk_config brisk4) as (H1 & H2 & H3 & _).
  - reflexivity.
  - exact brisk4_reachable.
  - split; [exact H1|]. split; [exact H2|]. split.
    + split; [reflexivity|]. split; [reflexivity|].
      apply (H2 3%nat); vm_compute; reflexivity.
    + apply (H3 (mkTick 310 (repeat (1 # 2) 512) 6) (unschedule 5 brisk4)).
      * reflexivity.
      * vm_compute. reflexivity.
Defined.

Lemma height_bounded_witness :
  Forall (fun rb : BarRef =>
            0 <= Bar.height (snd rb)
            /\ Bar.height (snd rb) <= Bar.targetHeight (snd rb))
    (bars brisk4)
  /\ (In (brisk_bar 4) (bars brisk4)
      /\ Bar.status (snd (brisk_bar 4)) = recorded
      /\ 0 < Bar.height (snd (brisk_bar 4))
      /\ Bar.height (snd (brisk_bar 4))
         < Bar.targetHeight (snd (brisk_bar 4))).
Proof.
  split.
  - apply (height_bounded brisk_config brisk4).
    + exact easeInOutCubic_range.
    + reflexivity.
    + discriminate.
    + exact brisk4_reachable.
  - split; [|repeat split; vm_compute; reflexivity].
    vm_compute. repeat (first [left; reflexivity | right]).
Defined.

(** The placeholder that the frame at time 0 scrolls off the surface. *)
Definition brisk_leaver : BarRef :=
  nth 0 (bars brisk_start) (0%nat, seed_bar brisk_config 0).

Lemma brisk1_step :
  step brisk_config brisk_start (Frame 1 (mkTick 0 (repeat 0 512) 2))
    (snd (animate brisk_config (mkTick 0 (repeat 0 512) 2)
            (unschedule 1 brisk_start)))
    brisk1.
Proof.
  unfold brisk1.
  apply step_frame; [vm_compute; auto | vm_compute; discriminate].
Qed.

Lemma brisk4_steps :
  steps brisk_config brisk1
    ((([] ++ [Frame 2 (mkTick 50 (repeat 0 512) 3)])
      ++ [Frame 3 (mkTick 150 [42 # 100] 4)])
     ++ [Frame 4 (mkTick 200 [] 5)])
    brisk4.
Proof.
  unfold brisk4, brisk3, brisk2.
  eapply steps_snoc;
    [eapply steps_snoc; [eapply steps_snoc; [apply steps_nil|]|]|];
    (apply step_frame; [vm_compute; auto | vm_compute; discriminate]).
Qed.

Lemma cull_exact_witness :
  In brisk_leaver (bars brisk_start)
  /\ fst brisk_leaver = 1%nat
  /\ Bar.x (snd brisk_leaver) - scrollSpeed brisk_config
     + Bar.width (snd brisk_leaver) < 0
  /\ ~ In (aged brisk_config (now (mkTick 0 (repeat 0 512) 2)) brisk_leaver)
        (bars brisk1)
  /\ ~ In 1%nat (map fst (bars brisk1))
  /\ ~ In 1%nat (map fst (bars brisk4)).
Proof.
  destruct (cull_exact brisk_config brisk_start brisk_start_reachable)
    as [Htick Hgone].
  assert (Hin : In brisk_leaver (bars brisk_start)).
  { vm_compute. left. reflexivity. }
  assert (Hin1 : In (1%nat, snd brisk_leaver) (bars brisk_start)).
  { vm_compute. left. reflexivity. }
  assert (Hlow : Bar.x (snd brisk_leaver) - scrollSpeed brisk_config
                 + Bar.width (snd brisk_leaver) < 0).
  { vm_compute. reflexivity. }
  assert (Hlive : In brisk_leaver
                    (bars (sample brisk_config (mkTick 0 (repeat 0 512) 2)
                             (unschedule 1 brisk_start)))).
  { vm_compute. left. reflexivity. }
  assert (Hout : ~ In 1%nat (map fst (bars brisk1))).
  { vm_compute. intuition discriminate. }
  split; [exact Hin|]. split; [vm_compute; reflexivity|].
  split; [exact Hlow|]. split.
  - destruct (Htick (mkTick 0 (repeat 0 512) 2) (unschedule 1 brisk_start))
      as (_ & Hkeep & _).
    destruct (Hkeep brisk_leaver Hlive) as [_ Hiff].
    unfold brisk1. intro H.
    exact (Qle_not_lt _ _ (proj1 Hiff H) Hlow).
  - split; [exact Hout|].
    exact (Hgone _ _ brisk1 1%nat (snd brisk_leaver) brisk1_step Hin1 Hout
             _ brisk4 brisk4_steps).
Defined.

(** ** Painting *)

Definition width_inv (c : Config) (bs : list BarRef) : Prop :=
  Forall (fun rb : BarRef => Bar.width (snd rb) = barWidth c) bs.

Lemma sample_width (c : Config) (e : Tick) (s : State) :
  width_inv c (bars s) -> width_inv c (bars (sample c e s)).
Proof.
  intro H. unfold sample.
  destruct (samples c e s); [destruct (frequencyArray s)|]; try exact H.
  simpl. apply Forall_app. split; [exact H|]. repeat constructor.
Qed.


(** A surface 100 high with [noiseThreshold: 0.07], the other options
    default. *)
Definition gate_config : Config :=
  mkConfig 100 100 100 3 10 1 "#FFFFFF" "#666666" "#000000" (7 # 100)
    easeInOutCubic 200.

(** A recorded bar of target 7, fully grown. *)
Definition seven_bar : Bar.t := Bar.mk 50 (93 # 2) 3 7 7 0 recorded.

(** C8 as stated fails: with [noiseThreshold: 0.07] on a surface 100 high
    the threshold of line 119 is the binary64 product 7.000000000000001,
    not 7.  A recorded bar of target 7 is at the threshold
    noiseThreshold * height, so the claim has it painted as a rectangle of
    its height; the code finds 7 < 7.000000000000001 and paints the dot. *)
Lemma threshold_follows_rounding :
  minHeight64 gate_config == 7 + (1 # 1125899906842624)
  /\ noiseThreshold gate_config * height gate_config
     <= Bar.targetHeight seven_bar
  /\ Bar.status seven_bar = recorded
  /\ paint gate_config (minHeight64 gate_config) seven_bar
     = FillRect (dotColor gate_config) (Bar.x seven_bar)
         (height gate_config / 2 - 1) (Bar.width seven_bar) 2
  /\ ~ exact_threshold gate_config.
Proof.
  split; [vm_compute; reflexivity|].
  split; [vm_compute; discriminate|].
  split; [reflexivity|].
  split; [vm_compute; reflexivity|].
  unfold exact_threshold. vm_compute. discriminate.
Qed.




(** ** A denied stream *)

Definition not_granted (call : Call) : Prop :=
  match call with
  | CallStart (Granted _ _) => False
  | _ => True
  end.

Definition not_frame (call : Call) : Prop :=
  match call with
  | Frame _ _ => False
  | _ => True
  end.

(** No frame is scheduled, and every recorded bar was already in [bs]. *)
Definition idle (bs : list BarRef) (s : State) : Prop :=
  pending s = []
  /\ forall rb, In rb (bars s) -> Bar.status (snd rb) = recorded -> In rb bs.

Lemma initialize_pending (c : Config) (s s' : State) (ev : list Event) :
  initialize c s = Some (s', ev) -> pending s' = pending s.
Proof.
  unfold initialize.
  destruct (Qeq_bool (barWidth c + barGap c) 0).
  - destruct (Qltb 0 (width c)); [discriminate|].
    intro H. injection H as <- _. reflexivity.
  - intro H. injection H as <- _. rewrite seed_loop_spec. reflexivity.
Qed.

Lemma stop_pending (s : State) : pending s = [] -> pending (fst (stop s)) = [].
Proof.
  intro H. unfold stop. destruct (animationFrameId s) as [id|]; [|exact H].
  destruct (Nat.eqb id 0); simpl; [exact H|]. rewrite H. reflexivity.
Qed.

Lemma step_idle (c : Config) (bs : list BarRef) (s s' : State) (call : Call)
    (ev : list Event) :
  idle bs s -> not_granted call -> step c s call ev s' ->
  idle bs s' /\ not_frame call.
Proof.
  intros [Hp Hrec] Hng Hstep. destruct Hstep.
  - split; [|exact I]. split.
    + rewrite (initialize_pending c s s' ev H). exact Hp.
    + destruct (initialize_bars c s s' ev H) as (n & Hb & _).
      rewrite Hb. intros rb Hin Hs. apply in_map_iff in Hin.
      destruct Hin as (k & <- & _). discriminate.
  - contradiction.
  - rewrite start_denied. simpl. split; [split; assumption | exact I].
  - split; [|exact I]. split; [apply stop_pending; exact Hp|].
    destruct (stop_bars s) as (-> & _). exact Hrec.
  - rewrite Hp in H. contradiction.
Qed.

(** C9: when the stream is denied, [start] leaves the instance as it was
    and emits the request and one console error, nothing else: no frame is
    painted or scheduled and the request is not repeated.  If no frame was
    scheduled, then as long as no later [start] is granted no frame ever
    runs and no recorded bar is ever added. *)
Theorem denied_start_is_inert (c : Config) (s : State) (err : string) :
  start c (Denied err) s
  = (s, [GetUserMedia; ConsoleError "Error getting audio stream:" err])
  /\ step c s (CallStart (Denied err))
       [GetUserMedia; ConsoleError "Error getting audio stream:" err] s
  /\ (forall calls s',
        pending s = [] ->
        Forall not_granted calls ->
        steps c s calls s' ->
        pending s' = []
        /\ Forall not_frame calls
        /\ forall rb, In rb (bars s') ->
             Bar.status (snd rb) = recorded -> In rb (bars s))
  /\ (forall t s1 ev,
        initialize c (new_state t) = Some (s1, ev) ->
        forall calls s',
          Forall not_granted calls ->
          steps c s1 calls s' ->
          Forall (fun rb : BarRef => Bar.status (snd rb) = placeholder)
            (bars s')).
Proof.
  split; [reflexivity|]. split; [apply (step_start_denied c s err)|].
  assert (Hrun : forall s0 calls s',
             pending s0 = [] -> Forall not_granted calls ->
             steps c s0 calls s' ->
             idle (bars s0) s' /\ Forall not_frame calls).
  { intros s0 calls s' Hp Hng Hsteps.
    induction Hsteps as [|s0 s1 s2 calls call ev _ IH Hstep].
    - split; [|constructor]. split; [exact Hp | auto].
    - apply Forall_app in Hng. destruct Hng as [Hng1 Hng2].
      inversion Hng2; subst.
      destruct (IH Hp Hng1) as [Hidle Hnf].
      destruct (step_idle c _ s1 s2 call ev Hidle H1 Hstep) as [Hidle' Hc].
      split; [exact Hidle'|]. apply Forall_app. split; [exact Hnf|].
      constructor; [exact Hc | constructor]. }
  split.
  - intros calls s' Hp Hng Hsteps.
    destruct (Hrun s calls s' Hp Hng Hsteps) as [[H1 H2] H3]. auto.
  - intros t s1 ev Hi calls s' Hng Hsteps.
    assert (Hp : pending s1 = []).
    { rewrite (initialize_pending c _ s1 ev Hi). reflexivity. }
    destruct (Hrun s1 calls s' Hp Hng Hsteps) as [[_ H2] _].
    destruct (initialize_bars c _ s1 ev Hi) as (n & Hb & _).
    apply Forall_forall. intros rb Hin.
    destruct (Bar.status (snd rb)) eqn:Es; [reflexivity|].
    specialize (H2 rb Hin Es). rewrite Hb in H2. apply in_map_iff in H2.
    destruct H2 as (k & <- & _). discriminate.
Qed.


(** * Further properties of the class *)

(** ** The constructor *)

(** A non-zero number, a non-empty string and any function are truthy:
    [||] keeps them. *)
Lemma num_or_truthy (q d : Q) : ~ q == 0 -> num_or (Some q) d = q.
Proof.
  intro H. simpl. destruct (Qeq_bool q 0) eqn:E; [|reflexivity].
  apply Qeq_bool_iff in E. contradiction.
Qed.

Lemma str_or_truthy (v d : string) :
  v <> EmptyString -> str_or (Some v) d = v.
Proof.
  intro H. destruct v; [contradiction | reflexivity].
Qed.

Lemma str_or_nonempty (v : option string) (d : string) :
  d <> EmptyString -> str_or v d <> EmptyString.
Proof.
  intro Hd.
  destruct v as [[|a v]|]; simpl; [exact Hd | discriminate | exact Hd].
Qed.

(** The constructor throws exactly when the canvas has no 2D context, with
    the message of line 64; otherwise the instance takes the layout size of
    the canvas as its width and height. *)
Theorem constructor_needs_context (options : HakaOptions) :
  (has2d (canvas options) = false <->
   constructor options = inr "Could not get 2D context from canvas"%string)
  /\ (has2d (canvas options) = true <->
      exists c, constructor options = inl c)
  /\ (forall c, constructor options = inl c ->
        width c = offsetWidth (canvas options)
        /\ height c = offsetHeight (canvas options)).
Proof.
  unfold constructor. destruct (has2d (canvas options)).
  - split; [split; discriminate|]. split.
    + split; [eexists; reflexivity | reflexivity].
    + intros c H. injection H as <-. split; reflexivity.
  - split; [split; reflexivity|]. split.
    + split; [discriminate | intros [c H]; discriminate].
    + intros c H. discriminate.
Qed.

(** Every truthy option is used as given (a negative number too), and a
    constructed instance has no zero among [timeOffset], [barWidth],
    [barGap], [scrollSpeed], [expandDuration] and no empty colour. *)
Theorem constructor_keeps_truthy (options : HakaOptions) (c : Config) :
  constructor options = inl c ->
  (forall q, ~ q == 0 ->
     (opt_timeOffset options = Some q -> timeOffset c = q)
     /\ (opt_barWidth options = Some q -> barWidth c = q)
     /\ (opt_barGap options = Some q -> barGap c = q)
     /\ (opt_scrollSpeed options = Some q -> scrollSpeed c = q)
     /\ (opt_expandDuration options = Some q -> expandDuration c = q))
  /\ (forall v, v <> EmptyString ->
        (opt_barColor options = Some v -> barColor c = v)
        /\ (opt_dotColor options = Some v -> dotColor c = v)
        /\ (opt_blackDotColor options = Some v -> blackDotColor c = v))
  /\ (forall f, opt_easing options = Some f -> easing c = f)
  /\ (~ timeOffset c == 0 /\ ~ barWidth c == 0 /\ ~ barGap c == 0
      /\ ~ scrollSpeed c == 0 /\ ~ expandDuration c == 0)
  /\ (barColor c <> EmptyString /\ dotColor c <> EmptyString
      /\ blackDotColor c <> EmptyString).
Proof.
  unfold constructor. destruct (has2d (canvas options)); [|discriminate].
  intro H. injection H as <-. simpl.
  split; [|split; [|split; [|split]]].
  - intros q Hq.
    repeat split; intro Ho; rewrite Ho; apply num_or_truthy; exact Hq.
  - intros v Hv.
    repeat split; intro Ho; rewrite Ho; apply str_or_truthy; exact Hv.
  - intros f Ho. rewrite Ho. reflexivity.
  - repeat split; apply num_or_nonzero; discriminate.
  - repeat split; apply str_or_nonempty; discriminate.
Qed.

Definition leftward_options : HakaOptions :=
  mkOptions (mkCanvas true 300 150) None (Some 4) None (Some (- (2)))
    (Some "red"%string) None None None None None.

Lemma constructor_keeps_truthy_witness :
  exists c,
    constructor leftward_options = inl c
    /\ barWidth c = 4 /\ scrollSpeed c = - (2) /\ barColor c = "red"%string.
Proof.
  eexists. split; [reflexivity|].
  destruct (constructor_keeps_truthy leftward_options _ eq_refl)
    as (Hn & Hs & _).
  destruct (Hn 4) as (_ & Hw & _); [discriminate|].
  destruct (Hn (- (2))) as (_ & _ & _ & Hv & _); [discriminate|].
  destruct (Hs "red"%string) as (Hc & _); [discriminate|].
  split; [apply Hw; reflexivity|].
  split; [apply Hv; reflexivity | apply Hc; reflexivity].
Defined.

(** ** [setupCanvas] *)

(** What [setupCanvas] assigns: the instance size, the size of the backing
    store of the canvas, its style size in pixels, and the scale of the
    context. *)
Record CanvasSetup : Type := mkSetup {
  setup_width : Q;
  setup_height : Q;
  canvas_width : Z;
  canvas_height : Z;
  style_width : Q;
  style_height : Q;
  ctx_scale : Q * Q
}.

Section SetupCanvas.

(** The setter of [canvas.width] and [canvas.height], which the host
    supplies: the attributes are unsigned long, so the number assigned is
    converted to a whole number. *)
Variable to_unsigned_long : Q -> Z.

(** Within the range of the attributes the conversion drops the
    fraction. *)
Hypothesis to_unsigned_long_floor :
  forall v, 0 <= v -> v < inject_Z 2147483648 ->
    to_unsigned_long v = Qfloor v.

Definition setupCanvas (cv : Canvas) (devicePixelRatio : option Q)
  : CanvasSetup :=
  let width := offsetWidth cv in
  let height := offsetHeight cv in
  let dpr := num_or devicePixelRatio 1 in
  mkSetup width height
    (to_unsigned_long (mul64 width dpr))
    (to_unsigned_long (mul64 height dpr))
    width height (dpr, dpr).

(** The stored size for a layout size [v] and a pixel ratio [d], when the
    binary64 product is the exact one and within range: the whole part of
    v * d, which the context scale maps back to within one device pixel
    below [v]. *)
Lemma backing_store_bounds (v d : Q) :
  0 < d -> 0 <= v ->
  mul64 v d == v * d ->
  v * d < inject_Z 2147483648 ->
  let n := to_unsigned_long (mul64 v d) in
  n = Qfloor (v * d)
  /\ inject_Z n / d <= v
  /\ v - 1 / d < inject_Z n / d.
Proof.
  intros Hd Hv Hex Hrange n.
  assert (Hn : n = Qfloor (v * d)).
  { unfold n. rewrite to_unsigned_long_floor.
    - apply Qfloor_comp. exact Hex.
    - rewrite Hex. apply Qmult_le_0_compat; lra.
    - rewrite Hex. exact Hrange. }
  split; [exact Hn|].
  pose proof (Qfloor_le (v * d)) as Hlo.
  pose proof (Qlt_floor (v * d)) as Hhi.
  rewrite inject_Z_plus in Hhi. change (inject_Z 1) with 1 in Hhi.
  rewrite <- Hn in Hlo, Hhi. split.
  - apply Qle_shift_div_r; [exact Hd | exact Hlo].
  - apply Qlt_shift_div_l; [exact Hd|].
    setoid_replace ((v - 1 / d) * d) with (v * d - 1)
      by (field; intro H0; rewrite H0 in Hd; discriminate).
    lra.
Qed.

(** [setupCanvas] stores the whole part of layout size times pixel ratio as
    the backing store (101 * 1.25 is stored as 126) and scales the context
    by the ratio, so the surface that drawing in the instance's [width] x
    [height] units reaches falls short of the layout size by less than one
    device pixel, and by nothing when the product is whole.  The pixel
    ratio is positive, the products are exact in binary64 and below 2^31.
    A missing or zero ratio counts as 1; the style size and the instance
    size are the layout size. *)
Theorem setupCanvas_backing_store (cv : Canvas)
    (devicePixelRatio : option Q) :
  let d := num_or devicePixelRatio 1 in
  let su := setupCanvas cv devicePixelRatio in
  0 < d ->
  0 <= offsetWidth cv -> 0 <= offsetHeight cv ->
  mul64 (offsetWidth cv) d == offsetWidth cv * d ->
  mul64 (offsetHeight cv) d == offsetHeight cv * d ->
  offsetWidth cv * d < inject_Z 2147483648 ->
  offsetHeight cv * d < inject_Z 2147483648 ->
  (canvas_width su = Qfloor (offsetWidth cv * d)
   /\ canvas_height su = Qfloor (offsetHeight cv * d))
  /\ (inject_Z (canvas_width su) / fst (ctx_scale su) <= setup_width su
      /\ setup_width su - 1 / d
         < inject_Z (canvas_width su) / fst (ctx_scale su))
  /\ (inject_Z (canvas_height su) / snd (ctx_scale su) <= setup_height su
      /\ setup_height su - 1 / d
         < inject_Z (canvas_height su) / snd (ctx_scale su))
  /\ (forall z, offsetWidth cv * d == inject_Z z ->
        inject_Z (canvas_width su) / fst (ctx_scale su) == setup_width su)
  /\ (falsy_num devicePixelRatio -> d = 1)
  /\ style_width su = offsetWidth cv /\ style_height su = offsetHeight cv
  /\ setup_width su = offsetWidth cv /\ setup_height su = offsetHeight cv.
Proof.
  intros d su Hd Hw Hh Hexw Hexh Hrw Hrh.
  destruct (backing_store_bounds (offsetWidth cv) d Hd Hw Hexw Hrw)
    as (Hnw & Hw1 & Hw2).
  destruct (backing_store_bounds (offsetHeight cv) d Hd Hh Hexh Hrh)
    as (Hnh & Hh1 & Hh2).
  unfold su, setupCanvas.
  cbn [canvas_width canvas_height ctx_scale setup_width setup_height
       style_width style_height fst snd].
  fold d.
  split; [split; assumption|]. split; [split; assumption|].
  split; [split; assumption|]. split.
  - intros z Hz. rewrite Hnw.
    rewrite (Qfloor_comp _ _ Hz), Qfloor_Z, <- Hz.
    apply Qdiv_mult_l. intro H0. rewrite H0 in Hd. discriminate.
  - split; [intro Hf; apply num_or_falsy; exact Hf|].
    repeat split.
Qed.

End SetupCanvas.

Lemma setupCanvas_backing_store_witness :
  canvas_width
    (setupCanvas Qfloor (mkCanvas true 101 50) (Some (125 # 100)))
  = 126%Z
  /\ 101 - 1 / (125 # 100) < inject_Z 126 / (125 # 100).
Proof.
  pose proof (setupCanvas_backing_store Qfloor (fun v _ _ => eq_refl)
                (mkCanvas true 101 50) (Some (125 # 100))) as H.
  cbv zeta in H.
  assert (H1 : 0 < num_or (Some (125 # 100)) 1) by (vm_compute; reflexivity).
  assert (H2 : 0 <= offsetWidth (mkCanvas true 101 50))
    by (vm_compute; discriminate).
  assert (H3 : 0 <= offsetHeight (mkCanvas true 101 50))
    by (vm_compute; discriminate).
  assert (H4 : mul64 (offsetWidth (mkCanvas true 101 50))
                 (num_or (Some (125 # 100)) 1)
               == offsetWidth (mkCanvas true 101 50)
                  * num_or (Some (125 # 100)) 1)
    by (vm_compute; reflexivity).
  assert (H5 : mul64 (offsetHeight (mkCanvas true 101 50))
                 (num_or (Some (125 # 100)) 1)
               == offsetHeight (mkCanvas true 101 50)
                  * num_or (Some (125 # 100)) 1)
    by (vm_compute; reflexivity).
  assert (H6 : offsetWidth (mkCanvas true 101 50)
               * num_or (Some (125 # 100)) 1 < inject_Z 2147483648)
    by (vm_compute; reflexivity).
  assert (H7 : offsetHeight (mkCanvas true 101 50)
               * num_or (Some (125 # 100)) 1 < inject_Z 2147483648)
    by (vm_compute; reflexivity).
  destruct (H H1 H2 H3 H4 H5 H6 H7) as ((Hw & _) & _).
  split; [rewrite Hw; vm_compute; reflexivity|].
  vm_compute. reflexivity.
Defined.

(** ** The default easing *)

Lemma square_nonneg (a : Q) : 0 <= a * a.
Proof.
  destruct (Qlt_le_dec a 0) as [H | H].
  - setoid_replace (a * a) with ((- a) * (- a)) by ring.
    apply Qmult_le_0_compat; lra.
  - apply Qmult_le_0_compat; exact H.
Qed.

Lemma cube_mono (a b : Q) : a <= b -> a * a * a <= b * b * b.
Proof.
  intro H.
  assert (Hs : 0 <= b * b + b * a + a * a).
  { pose proof (square_nonneg (b + a)) as H1.
    pose proof (square_nonneg a) as H2.
    pose proof (square_nonneg b) as H3.
    lra. }
  assert (Hp : 0 <= (b - a) * (b * b + b * a + a * a)).
  { apply Qmult_le_0_compat; [lra | exact Hs]. }
  lra.
Qed.

(** The two branches of [easeInOutCubic] as polynomials. *)
Lemma ease_low (x : Q) : x < 1 # 2 -> easeInOutCubic x == 4 * (x * x * x).
Proof.
  intro H. unfold easeInOutCubic. apply Qltb_lt in H. rewrite H. ring.
Qed.

Lemma ease_high (x : Q) :
  1 # 2 <= x -> easeInOutCubic x == 1 - 4 * ((1 - x) * (1 - x) * (1 - x)).
Proof.
  intro H. unfold easeInOutCubic. apply Qltb_ge in H. rewrite H.
  unfold Math.pow. simpl. field.
Qed.

Lemma easeInOutCubic_mono (p q : Q) :
  p <= q -> easeInOutCubic p <= easeInOutCubic q.
Proof.
  intro H.
  destruct (Qlt_le_dec p (1 # 2)) as [Hp | Hp],
           (Qlt_le_dec q (1 # 2)) as [Hq | Hq].
  - rewrite (ease_low p Hp), (ease_low q Hq).
    pose proof (cube_mono p q H). lra.
  - rewrite (ease_low p Hp), (ease_high q Hq).
    assert (H1 : p <= 1 # 2) by lra.
    assert (H2 : 1 - q <= 1 # 2) by lra.
    pose proof (cube_mono p (1 # 2) H1) as C1.
    pose proof (cube_mono (1 - q) (1 # 2) H2) as C2.
    setoid_replace ((1 # 2) * (1 # 2) * (1 # 2)) with (1 # 8) in C1
      by reflexivity.
    setoid_replace ((1 # 2) * (1 # 2) * (1 # 2)) with (1 # 8) in C2
      by reflexivity.
    lra.
  - lra.
  - rewrite (ease_high p Hp), (ease_high q Hq).
    assert (H1 : 1 - q <= 1 - p) by lra.
    pose proof (cube_mono (1 - q) (1 - p) H1). lra.
Qed.

(** The default easing never decreases (on the unit interval and beyond),
    respects equality of numbers, and takes 0 to 0, 1/2 to 1/2 and 1 to 1:
    with it a bar starts at height 0, grows without ever shrinking, and
    ends at its target. *)
Theorem easeInOutCubic_grows :
  (forall p q, p <= q -> easeInOutCubic p <= easeInOutCubic q)
  /\ (forall p q, p == q -> easeInOutCubic p == easeInOutCubic q)
  /\ monotone_unit easeInOutCubic
  /\ easeInOutCubic 0 == 0
  /\ easeInOutCubic (1 # 2) == 1 # 2
  /\ easeInOutCubic 1 == 1.
Proof.
  split; [exact easeInOutCubic_mono|]. split; [|split].
  - intros p q H. apply Qle_antisym; apply easeInOutCubic_mono; lra.
  - intros p q _ H _. apply easeInOutCubic_mono. exact H.
  - repeat split; reflexivity.
Qed.

(** The default easing is symmetric about the midpoint: the second half of
    the growth mirrors the first, easing(1 - x) = 1 - easing(x). *)
Theorem easeInOutCubic_symmetric (x : Q) :
  easeInOutCubic (1 - x) == 1 - easeInOutCubic x.
Proof.
  destruct (Qlt_le_dec x (1 # 2)) as [Hx | Hx].
  - rewrite (ease_low x Hx), (ease_high (1 - x)) by lra. ring.
  - destruct (Qlt_le_dec (1 # 2) x) as [Hx' | Hx'].
    + rewrite (ease_high x Hx), (ease_low (1 - x)) by lra. ring.
    + rewrite (ease_high x Hx), (ease_high (1 - x)) by lra.
      assert (E : x == 1 # 2) by lra. rewrite E. reflexivity.
Qed.

(** ** The ageing loop never reads outside the array *)

(** The loop of lines 120-150 once more, with the failure made explicit:
    reading a field of [bars[i]] when the index is outside the array throws
    a TypeError ([None]). *)
Fixpoint age_loop_checked (c : Config) (t minHeight : Q) (k : nat)
    (bs : list BarRef) (out : list Event)
  : option (list BarRef * list Event) :=
  match k with
  | O => Some (bs, out)
  | S i =>
      match nth_error bs i with
      | Some (r, bar) =>
          let bar1 := grow c t bar in
          let out1 := out ++ [paint c minHeight bar1] in
          let bar2 := scroll c bar1 in
          if offscreen bar2
          then age_loop_checked c t minHeight i (splice1 i bs) out1
          else age_loop_checked c t minHeight i (assign i (r, bar2) bs) out1
      | None => None
      end
  end.

Lemma age_loop_checked_spec (c : Config) (t : Q) (pre : list BarRef) :
  forall suf out,
    age_loop_checked c t (height c * noiseThreshold c) (List.length pre)
      (pre ++ suf) out
    = Some (filter onscreen (map (aged c t) pre) ++ suf,
            out ++ map (painted c t) (rev pre)).
Proof.
  induction pre as [|[r b] pre IH] using rev_ind; intros suf out.
  - simpl. rewrite app_nil_r. reflexivity.
  - rewrite length_app, Nat.add_comm. simpl.
    rewrite <- app_assoc. simpl.
    rewrite nth_error_middle.
    rewrite map_app, filter_app, rev_app_distr. simpl.
    unfold onscreen at 2. simpl.
    destruct (offscreen (scroll c (grow c t b))) eqn:E; simpl.
    + rewrite splice1_middle, IH, app_nil_r, <- app_assoc. reflexivity.
    + rewrite assign_middle, IH, <- !app_assoc. reflexivity.
Qed.

(** Although the loop removes bars from the array it is walking, it never
    reads past the end, and it handles every bar exactly once: each one is
    aged and painted once, the survivors keep their order, and the frame
    has one rectangle per bar, newest first. *)
Theorem age_loop_visits_each_bar_once (c : Config) (t : Q)
    (bs : list BarRef) :
  let minHeight := height c * noiseThreshold c in
  age_loop_checked c t minHeight (List.length bs) bs []
  = Some (age_loop c t minHeight (List.length bs) bs [])
  /\ fst (age_loop c t minHeight (List.length bs) bs [])
     = filter onscreen (map (aged c t) bs)
  /\ snd (age_loop c t minHeight (List.length bs) bs [])
     = map (painted c t) (rev bs)
  /\ List.length (snd (age_loop c t minHeight (List.length bs) bs []))
     = List.length bs
  /\ (List.length (fst (age_loop c t minHeight (List.length bs) bs []))
      <= List.length bs)%nat.
Proof.
  intro minHeight. subst minHeight.
  pose proof (age_loop_checked_spec c t bs [] []) as Hc.
  pose proof (age_loop_spec c t bs [] []) as Hu.
  rewrite app_nil_r in Hc, Hu. rewrite Hc, Hu. simpl. rewrite app_nil_r.
  split; [reflexivity|]. split; [reflexivity|]. split; [reflexivity|].
  split.
  - rewrite length_map, length_rev. reflexivity.
  - eapply Nat.le_trans; [apply filter_length_le|].
    rewrite length_map. apply Nat.le_refl.
Qed.

(** ** An empty timeline *)

Definition not_initialize (call : Call) : Prop :=
  match call with
  | CallInitialize => False
  | _ => True
  end.

Lemma samples_empty (c : Config) (e : Tick) (s : State) :
  0 < barWidth c + barGap c -> bars s = [] -> samples c e s = false.
Proof.
  intros Hpos Hb. unfold samples. rewrite Hb. unfold lastX. simpl.
  destruct (Qle_bool (barWidth c + barGap c) (width c - width c)) eqn:E;
    [|reflexivity].
  apply Qle_bool_iff in E. lra.
Qed.

Lemma animate_empty (c : Config) (e : Tick) (s : State) :
  0 < barWidth c + barGap c -> bars s = [] ->
  bars (fst (animate c e s)) = []
  /\ snd (animate c e s)
     = [ClearRect 0 0 (width c) (height c); RequestAnimationFrame (frameId e)].
Proof.
  intros Hpos Hb.
  rewrite animate_bars, animate_events.
  rewrite (sample_skips c e s (samples_empty c e s Hpos Hb)), Hb.
  split; reflexivity.
Qed.

Lemma step_empty (c : Config) (s s' : State) (call : Call)
    (ev : list Event) :
  0 < barWidth c + barGap c ->
  bars s = [] ->
  not_initialize call ->
  step c s call ev s' ->
  bars s' = [] /\ allocated s' = allocated s.
Proof.
  intros Hpos Hb Hni Hstep.
  assert (Htick : forall e s0,
            bars s0 = [] -> allocated s0 = allocated s ->
            bars (fst (animate c e s0)) = []
            /\ allocated (fst (animate c e s0)) = allocated s).
  { intros e s0 Hb0 Ha0. split; [apply (animate_empty c e s0 Hpos Hb0)|].
    destruct (animate_fields c e s0) as (_ & _ & _ & -> & _).
    rewrite sample_allocated, (samples_empty c e s0 Hpos Hb0), Ha0. lia. }
  destruct Hstep; simpl in Hni.
  - contradiction.
  - rewrite start_granted. simpl. apply Htick; [exact Hb | reflexivity].
  - rewrite start_denied. simpl. split; [exact Hb | reflexivity].
  - destruct (stop_bars s) as (-> & -> & _). split; [exact Hb | reflexivity].
  - apply Htick; [exact Hb | reflexivity].
Qed.

(** With a positive [barWidth + barGap], a tick on an empty array takes no
    sample, whatever the source delivers, and paints nothing: once the
    array is empty (before the first [initialize], or after every bar has
    scrolled off) it stays empty until [initialize] is called. *)
Theorem empty_timeline_stays_empty (c : Config) (s s' : State)
    (calls : list Call) :
  0 < barWidth c + barGap c ->
  bars s = [] ->
  Forall not_initialize calls ->
  steps c s calls s' ->
  bars s' = []
  /\ allocated s' = allocated s
  /\ (forall e s0, bars s0 = [] ->
        samples c e s0 = false
        /\ snd (animate c e s0)
           = [ClearRect 0 0 (width c) (height c);
              RequestAnimationFrame (frameId e)]).
Proof.
  intros Hpos Hb Hni Hsteps.
  assert (H : bars s' = [] /\ allocated s' = allocated s).
  { induction Hsteps as [|s s1 s2 calls call ev _ IH Hstep];
      [split; [exact Hb | reflexivity]|].
    apply Forall_app in Hni. destruct Hni as [Hni1 Hni2].
    inversion Hni2; subst. destruct (IH Hb Hni1) as [Hb1 Ha1].
    destruct (step_empty c s1 s2 call ev Hpos Hb1 H1 Hstep)
      as [Hb2 Ha2].
    split; [exact Hb2 | congruence]. }
  destruct H as [H1 H2]. split; [exact H1|]. split; [exact H2|].
  intros e s0 Hb0. split; [apply samples_empty; assumption|].
  apply (animate_empty c e s0 Hpos Hb0).
Qed.

Lemma empty_timeline_stays_empty_witness :
  let c := default_config 100 100 in
  let e := mkTick 5 (repeat (1 # 2) 512) 1 in
  bars (fst (start c (Granted 0 e) (new_state 0))) = [].
Proof.
  intros c e.
  refine (proj1 (empty_timeline_stays_empty c (new_state 0) _
                   ([] ++ [CallStart (Granted 0 e)]) _ eq_refl _ _)).
  - reflexivity.
  - repeat constructor.
  - eapply steps_snoc; [apply steps_nil|].
    apply step_start_granted; vm_compute; discriminate.
Defined.

(** ** The timeline stays on the surface and stays short *)

(** A bar starts no further right than the surface's right edge and ends
    no further left than its left edge. *)
Definition inside (c : Config) (rb : BarRef) : Prop :=
  Bar.x (snd rb) <= width c /\ 0 <= Bar.x (snd rb) + barWidth c.

Definition inside_inv (c : Config) (s : State) : Prop :=
  width_inv c (bars s) /\ Forall (inside c) (bars s).

Lemma seed_x_lt (c : Config) (k : nat) :
  0 < barWidth c + barGap c ->
  (k < Z.to_nat (Math.ceil (width c / (barWidth c + barGap c))))%nat ->
  inject_Z (Z.of_nat k) * (barWidth c + barGap c) < width c.
Proof.
  intros Hpos Hk. unfold Math.ceil in Hk.
  set (p := barWidth c + barGap c) in *.
  set (n := Qceiling (width c / p)) in *.
  assert (Hz : (Z.of_nat k <= n - 1)%Z) by lia.
  assert (Hq : inject_Z (Z.of_nat k) <= inject_Z (n - 1))
    by (rewrite <- Zle_Qle; exact Hz).
  pose proof (Qceiling_lt (width c / p)) as Hc. fold n in Hc.
  assert (Hlt : inject_Z (Z.of_nat k) < width c / p) by lra.
  apply (Qmult_lt_r _ _ p Hpos) in Hlt.
  setoid_replace (width c / p * p) with (width c) in Hlt; [exact Hlt|].
  field. intro H0. rewrite H0 in Hpos. discriminate.
Qed.

Lemma seed_x_nonneg (c : Config) (k : nat) :
  0 < barWidth c + barGap c ->
  0 <= inject_Z (Z.of_nat k) * (barWidth c + barGap c).
Proof.
  intro Hpos. apply Qmult_le_0_compat; [|lra].
  change 0 with (inject_Z 0). rewrite <- Zle_Qle. lia.
Qed.

Lemma initialize_count (c : Config) (s s' : State) (ev : list Event) :
  ~ barWidth c + barGap c == 0 ->
  initialize c s = Some (s', ev) ->
  bars s'
  = map (fun k => (allocated s + k, seed_bar c k)%nat)
      (seq 0 (Z.to_nat (Math.ceil (width c / (barWidth c + barGap c))))).
Proof.
  intros Hne Hi. pose proof (initialize_some c s Hne) as H.
  cbv zeta in H. rewrite H in Hi. injection Hi as <- _. reflexivity.
Qed.

Section Inside.
Variable c : Config.
Hypothesis pitch_pos : 0 < barWidth c + barGap c.
Hypothesis barWidth_nonneg : 0 <= barWidth c.
Hypothesis scroll_nonneg : 0 <= scrollSpeed c.

Lemma animate_inside (e : Tick) (s : State) :
  inside_inv c s -> inside_inv c (fst (animate c e s)).
Proof.
  intros [Hw Hin].
  assert (Hw' : width_inv c (bars (sample c e s)))
    by (apply sample_width; exact Hw).
  assert (Hin' : Forall (fun rb : BarRef => Bar.x (snd rb) <= width c)
                   (bars (sample c e s))).
  { unfold sample.
    destruct (samples c e s); [destruct (frequencyArray s)|];
      try (eapply Forall_impl; [|exact Hin]; intros rb [H _]; exact H).
    simpl. apply Forall_app. split.
    - eapply Forall_impl; [|exact Hin]. intros rb [H _]. exact H.
    - constructor; [simpl; apply Qle_refl | constructor]. }
  unfold width_inv in Hw'. rewrite Forall_forall in Hw', Hin'.
  split; apply Forall_forall; intros rb' Hrb';
    destruct (animate_origin c e s rb' Hrb') as (rb & Hrb & -> & Hon).
  - unfold aged, scroll. simpl. rewrite grow_width. auto.
  - apply aged_onscreen in Hon. rewrite (Hw' rb Hrb) in Hon.
    specialize (Hin' rb Hrb).
    unfold inside, aged, scroll. simpl. rewrite grow_x. split; lra.
Qed.

Lemma reachable_inside (s : State) : reachable c s -> inside_inv c s.
Proof.
  revert s. apply (reachable_invariant c (inside_inv c)).
  - intro t. split; constructor.
  - intros s0 call ev s' Hinv Hstep.
    destruct (step_shapes c s0 s' call ev Hstep)
      as [ev' Hi | s1 e Hb _ _ _ _ -> | Hb _ _ _ _].
    + assert (Hne : ~ barWidth c + barGap c == 0) by lra.
      unfold inside_inv, width_inv.
      rewrite (initialize_count c s0 s' ev' Hne Hi).
      split; apply Forall_forall; intros rb Hrb; apply in_map_iff in Hrb;
        destruct Hrb as (k & <- & Hk); [reflexivity|].
      apply in_seq in Hk. unfold inside, seed_bar. simpl.
      pose proof (seed_x_lt c k pitch_pos (proj2 Hk)).
      pose proof (seed_x_nonneg c k pitch_pos). split; lra.
    + apply animate_inside. unfold inside_inv in *. rewrite Hb. exact Hinv.
    + unfold inside_inv in *. rewrite Hb. exact Hinv.
Qed.
End Inside.

Lemma last_cons {A : Type} (b a : A) (l : list A) :
  last (b :: l) a = last l b.
Proof.
  revert a b. induction l as [|x l IH]; intros a b; [reflexivity|].
  change (last (b :: x :: l) a) with (last (x :: l) a).
  rewrite (IH a x), (IH b x). reflexivity.
Qed.

Lemma last_In {A : Type} (l : list A) : forall a, In (last l a) (a :: l).
Proof.
  induction l as [|b l IH]; intro a; [left; reflexivity|].
  rewrite last_cons. right. apply IH.
Qed.

(** In a spaced list the last bar starts at least one pitch per bar after
    the first. *)
Lemma spaced_span (c : Config) (l : list BarRef) :
  forall a,
    StronglySorted (spaced c) (a :: l) ->
    Bar.x (snd a)
    + inject_Z (Z.of_nat (List.length l)) * (barWidth c + barGap c)
    <= Bar.x (snd (last l a)).
Proof.
  induction l as [|b l IH]; intros a Hs.
  - simpl. change (inject_Z 0) with 0. lra.
  - apply StronglySorted_inv in Hs. destruct Hs as [Hs Hall].
    specialize (IH b Hs). rewrite last_cons.
    inversion Hall as [|b' l' Hab _]; subst. unfold spaced in Hab.
    cbn [List.length]. rewrite Nat2Z.inj_succ, <- Z.add_1_r, inject_Z_plus.
    change (inject_Z 1) with 1. lra.
Qed.

(** With a positive pitch [barWidth + barGap], a bar width and a scroll
    speed that are not negative, every bar of every reachable state lies
    between the edges of the surface (x <= width and x + barWidth >= 0),
    and the array holds at most (width + barWidth) / pitch + 1 bars: the
    timeline cannot grow without bound. *)
Theorem timeline_bounded (c : Config) (s : State) :
  0 < barWidth c + barGap c ->
  0 <= barWidth c ->
  0 <= scrollSpeed c ->
  0 <= width c ->
  reachable c s ->
  Forall (fun rb : BarRef =>
            Bar.x (snd rb) <= width c
            /\ 0 <= Bar.x (snd rb) + Bar.width (snd rb)) (bars s)
  /\ inject_Z (Z.of_nat (List.length (bars s))) * (barWidth c + barGap c)
     <= width c + barWidth c + (barWidth c + barGap c).
Proof.
  intros Hpos Hbw Hsc Hw Hr.
  destruct (reachable_inside c Hpos Hbw Hsc s Hr) as [Hwi Hin].
  destruct (reachable_spacing c s Hpos Hr) as [Hs _].
  split.
  - unfold width_inv in Hwi. rewrite Forall_forall in Hwi, Hin.
    apply Forall_forall. intros rb Hrb. rewrite (Hwi rb Hrb).
    exact (Hin rb Hrb).
  - destruct (bars s) as [|a l] eqn:Eb.
    + simpl. change (inject_Z 0) with 0. lra.
    + pose proof (spaced_span c l a Hs) as Hspan.
      rewrite Forall_forall in Hin.
      destruct (Hin a (or_introl eq_refl)) as [_ Ha].
      destruct (Hin (last l a) (last_In l a)) as [Hl _].
      cbn [List.length]. rewrite Nat2Z.inj_succ, <- Z.add_1_r, inject_Z_plus.
      change (inject_Z 1) with 1. lra.
Qed.

Lemma timeline_bounded_witness :
  inject_Z (Z.of_nat (List.length (bars quiet_run))) * (3 + 10)
  <= 100 + 3 + (3 + 10).
Proof.
  refine (proj2 (timeline_bounded (default_config 100 100) quiet_run
                   _ _ _ _ quiet_run_reachable));
    first [reflexivity | discriminate].
Defined.

(** ** The shape of the bars *)

(** A placeholder is flat and was never touched; a recorded bar is centred
    on the middle line of the surface. *)
Definition shaped (c : Config) (rb : BarRef) : Prop :=
  match Bar.status (snd rb) with
  | placeholder =>
      Bar.height (snd rb) = 0 /\ Bar.targetHeight (snd rb) = 0
      /\ Bar.created (snd rb) = 0 /\ Bar.y (snd rb) = 0
  | recorded =>
      Bar.y (snd rb) = height c / 2 - Bar.height (snd rb) / 2
  end.

(** No recorded bar comes before a placeholder. *)
Definition recorded_after (a b : BarRef) : Prop :=
  Bar.status (snd a) = recorded -> Bar.status (snd b) = recorded.

Definition shape_inv (c : Config) (bs : list BarRef) : Prop :=
  Forall (shaped c) bs /\ StronglySorted recorded_after bs.

Lemma aged_shaped (c : Config) (t : Q) (rb : BarRef) :
  (Bar.status (snd rb) = placeholder -> shaped c rb) ->
  shaped c (aged c t rb).
Proof.
  intro H. unfold shaped, aged, scroll, grow in *. simpl.
  destruct (Bar.status (snd rb)) eqn:Es; simpl; rewrite Es.
  - exact (H eq_refl).
  - reflexivity.
Qed.

Lemma seeds_shape (c : Config) (a : nat) (l : list nat) :
  shape_inv c (map (fun k => ((a + k)%nat, seed_bar c k)) l).
Proof.
  split.
  - apply Forall_forall. intros rb Hrb. apply in_map_iff in Hrb.
    destruct Hrb as (k & <- & _). unfold shaped. simpl. auto.
  - induction l as [|k l IH]; simpl; constructor; [exact IH|].
    apply Forall_forall. intros rb _ Hs. discriminate.
Qed.

Lemma animate_shape (c : Config) (e : Tick) (s : State) :
  shape_inv c (bars s) -> shape_inv c (bars (fst (animate c e s))).
Proof.
  intros [Hsh Hord].
  assert (Hsh' : Forall (fun rb : BarRef =>
                           Bar.status (snd rb) = placeholder -> shaped c rb)
                   (bars (sample c e s))
                 /\ StronglySorted recorded_after (bars (sample c e s))).
  { assert (H0 : Forall (fun rb : BarRef =>
                           Bar.status (snd rb) = placeholder -> shaped c rb)
                   (bars s)).
    { eapply Forall_impl; [|exact Hsh]. auto. }
    unfold sample.
    destruct (samples c e s); [destruct (frequencyArray s)|]; auto.
    simpl. split.
    - apply Forall_app. split; [exact H0|].
      constructor; [intro Hs; discriminate | constructor].
    - apply StronglySorted_snoc; [exact Hord|].
      apply Forall_forall. intros a _ _. reflexivity. }
  destruct Hsh' as [H1 H2]. rewrite animate_bars. split.
  - apply Forall_forall. intros rb' Hrb'. apply filter_In in Hrb'.
    destruct Hrb' as [Hrb' _]. apply in_map_iff in Hrb'.
    destruct Hrb' as (rb & <- & Hrb). apply aged_shaped.
    rewrite Forall_forall in H1. exact (H1 rb Hrb).
  - apply StronglySorted_filter, StronglySorted_map; [|exact H2].
    intros a b Hab. unfold recorded_after, aged, scroll. simpl.
    rewrite !grow_status. exact Hab.
Qed.

Lemma reachable_shape (c : Config) (s : State) :
  reachable c s -> shape_inv c (bars s).
Proof.
  revert s. apply (reachable_invariant c (fun s => shape_inv c (bars s))).
  - intro t. split; constructor.
  - intros s0 call ev s' Hinv Hstep.
    destruct (step_shapes c s0 s' call ev Hstep)
      as [ev' Hi | s1 e Hb _ _ _ _ -> | Hb _ _ _ _].
    + destruct (initialize_bars c s0 s' ev' Hi) as (n & -> & _).
      apply seeds_shape.
    + apply animate_shape. rewrite Hb. exact Hinv.
    + rewrite Hb. exact Hinv.
Qed.

(** In every reachable state a placeholder is still as [initialize] made
    it (height, target, creation time and y all 0: it never grows), a
    recorded bar is centred on the middle line (y + height / 2 is half the
    surface height), and the placeholders come first in the array: once a
    recorded bar is met, every later bar is recorded. *)
Theorem bars_keep_their_shape (c : Config) (s : State) :
  reachable c s ->
  (forall rb, In rb (bars s) ->
     (Bar.status (snd rb) = placeholder ->
      Bar.height (snd rb) = 0 /\ Bar.targetHeight (snd rb) = 0
      /\ Bar.created (snd rb) = 0 /\ Bar.y (snd rb) = 0)
     /\ (Bar.status (snd rb) = recorded ->
         Bar.y (snd rb) + Bar.height (snd rb) / 2 == height c / 2))
  /\ (forall i j a b, (i < j)%nat ->
        nth_error (bars s) i = Some a -> nth_error (bars s) j = Some b ->
        Bar.status (snd a) = recorded -> Bar.status (snd b) = recorded).
Proof.
  intro Hr. destruct (reachable_shape c s Hr) as [Hsh Hord]. split.
  - intros rb Hrb. rewrite Forall_forall in Hsh. specialize (Hsh rb Hrb).
    unfold shaped in Hsh. split; intro Hs; rewrite Hs in Hsh.
    + exact Hsh.
    + rewrite Hsh. ring.
  - intros i j a b Hij Ha Hb.
    exact (StronglySorted_nth _ _ Hord i j a b Hij Ha Hb).
Qed.

Lemma bars_keep_their_shape_witness :
  Forall (fun rb : BarRef =>
            Bar.status (snd rb) = recorded ->
            Bar.y (snd rb) + Bar.height (snd rb) / 2
            == height linear_config / 2)
    (bars (loud_run 300)).
Proof.
  apply Forall_forall. intros rb Hrb.
  exact (proj2 (proj1 (bars_keep_their_shape linear_config (loud_run 300)
                         loud_run_reachable) rb Hrb)).
Defined.

(** ** The audio source *)

Lemma getFloatTimeDomainData_length (data array : list Q) :
  List.length (getFloatTimeDomainData data array) = List.length array.
Proof.
  unfold getFloatTimeDomainData.
  rewrite length_app, length_firstn, length_skipn. lia.
Qed.

Lemma sample_buffer (c : Config) (e : Tick) (s : State) :
  analyser (sample c e s) = analyser s
  /\ pending (sample c e s) = pending s
  /\ match frequencyArray s with
     | Some array =>
         exists array', frequencyArray (sample c e s) = Some array'
                        /\ List.length array' = List.length array
     | None => frequencyArray (sample c e s) = None
     end.
Proof.
  unfold sample.
  destruct (frequencyArray s) as [array|] eqn:E.
  - destruct (samples c e s); simpl.
    + split; [reflexivity|]. split; [reflexivity|].
      eexists. split; [reflexivity|]. apply getFloatTimeDomainData_length.
    + split; [reflexivity|]. split; [reflexivity|].
      exists array. split; [exact E | reflexivity].
  - destruct (samples c e s); auto.
Qed.

Lemma animate_buffer (c : Config) (e : Tick) (s : State) :
  frequencyArray (fst (animate c e s)) = frequencyArray (sample c e s).
Proof.
  unfold animate.
  destruct (age_loop c (now e) (height c * noiseThreshold c)
              (List.length (bars (sample c e s))) (bars (sample c e s)) [])
    as [bs rects].
  reflexivity.
Qed.

Lemma initialize_fields (c : Config) (s s' : State) (ev : list Event) :
  initialize c s = Some (s', ev) ->
  frequencyArray s' = frequencyArray s
  /\ animationFrameId s' = animationFrameId s.
Proof.
  unfold initialize.
  destruct (Qeq_bool (barWidth c + barGap c) 0).
  - destruct (Qltb 0 (width c)); [discriminate|].
    intro H. injection H as <- _. split; reflexivity.
  - intro H. injection H as <- _. rewrite seed_loop_spec.
    split; reflexivity.
Qed.

Lemma stop_fields (s : State) :
  frequencyArray (fst (stop s)) = frequencyArray s
  /\ animationFrameId (fst (stop s)) = animationFrameId s.
Proof.
  unfold stop. destruct (animationFrameId s) as [id|] eqn:E; [|auto].
  destruct (Nat.eqb id 0); simpl; auto.
Qed.

(** The analyser and its buffer come and go together, the buffer holds 512
    samples, and while there is no analyser nothing has run. *)
Definition source_inv (s : State) : Prop :=
  match frequencyArray s with
  | Some array => analyser s = true /\ List.length array = 512%nat
  | None =>
      analyser s = false /\ pending s = [] /\ animationFrameId s = None
      /\ lastDataCollectionTime s = 0
      /\ Forall (fun rb : BarRef => Bar.status (snd rb) = placeholder)
           (bars s)
  end.

Lemma animate_source (c : Config) (e : Tick) (s : State) (array : list Q) :
  frequencyArray s = Some array -> analyser s = true ->
  List.length array = 512%nat ->
  source_inv (fst (animate c e s)).
Proof.
  intros Hf Ha Hl. unfold source_inv. rewrite animate_buffer.
  destruct (sample_buffer c e s) as (Ha' & _ & Hb). rewrite Hf in Hb.
  destruct Hb as (array' & -> & Hl').
  destruct (animate_fields c e s) as (_ & -> & _).
  split; [exact Ha | congruence].
Qed.

Lemma step_source (c : Config) (s s' : State) (call : Call)
    (ev : list Event) :
  source_inv s -> step c s call ev s' -> source_inv s'.
Proof.
  intros Hinv Hstep. destruct Hstep.
  - destruct (initialize_fields c s s' ev H) as [Hf Hid].
    destruct (initialize_bars c s s' ev H) as (n & Hb & _ & _ & Hl & Ha).
    pose proof (initialize_pending c s s' ev H) as Hp.
    unfold source_inv in *. rewrite Hf, Ha, Hp, Hid, Hl.
    destruct (frequencyArray s); [exact Hinv|].
    destruct Hinv as (H1 & H2 & H3 & H4 & _).
    repeat split; try assumption.
    rewrite Hb. apply Forall_forall. intros rb Hrb.
    apply in_map_iff in Hrb. destruct Hrb as (k & <- & _). reflexivity.
  - rewrite start_granted. simpl.
    apply animate_source with (array := repeat 0 512);
      [reflexivity | reflexivity | apply repeat_length].
  - rewrite start_denied. exact Hinv.
  - destruct (stop_bars s) as (Hb & _ & _ & Hl & Ha).
    destruct (stop_fields s) as [Hf Hid].
    unfold source_inv in *. rewrite Hf, Ha, Hid, Hl, Hb.
    destruct (frequencyArray s); [exact Hinv|].
    destruct Hinv as (H1 & H2 & H3 & H4 & H5).
    repeat split; try assumption. apply stop_pending. exact H2.
  - unfold source_inv in Hinv.
    destruct (frequencyArray s) as [array|] eqn:Ef.
    + destruct Hinv as [Ha Hl].
      apply animate_source with (array := array); assumption.
    + destruct Hinv as (_ & Hp & _). rewrite Hp in H. contradiction.
Qed.

(** In every reachable state the analyser is attached exactly when the
    sample buffer exists, and the buffer then holds 512 samples whatever
    the analyser delivered.  While no stream has been granted, no frame is
    scheduled, no sample time was taken, the sampling block cannot run, and
    every bar is a placeholder. *)
Theorem source_attached_or_idle (c : Config) (s : State) :
  reachable c s ->
  (analyser s = true <-> frequencyArray s <> None)
  /\ (forall array, frequencyArray s = Some array ->
        List.length array = 512%nat)
  /\ (analyser s = false ->
      pending s = []
      /\ animationFrameId s = None
      /\ lastDataCollectionTime s = 0
      /\ (forall e, samples c e s = false)
      /\ Forall (fun rb : BarRef => Bar.status (snd rb) = placeholder)
           (bars s)).
Proof.
  intro Hr.
  assert (H : source_inv s).
  { revert s Hr. apply (reachable_invariant c source_inv).
    - intro t. unfold source_inv. simpl. repeat split. constructor.
    - intros s0 call ev s'. apply step_source. }
  unfold source_inv in H. destruct (frequencyArray s) as [array|] eqn:Ef.
  - destruct H as [Ha Hl]. split; [split; [discriminate | auto]|].
    split; [intros array' E; congruence|].
    intro Hf. congruence.
  - destruct H as (Ha & Hp & Hid & Hl & Hb).
    split; [split; [congruence | intro Hn; contradiction]|].
    split; [discriminate|].
    intros _. repeat split; try assumption.
    intro e. unfold samples. rewrite Ha, andb_false_r. reflexivity.
Qed.

Lemma source_attached_or_idle_witness :
  analyser quiet_run = true <-> frequencyArray quiet_run <> None.
Proof.
  exact (proj1 (source_attached_or_idle (default_config 100 100)
                  quiet_run quiet_run_reachable)).
Defined.

(** ** The target height of a new bar *)

Lemma peak_silent (array : list Q) :
  Forall (fun v => v <= 0) array -> peak array = 0.
Proof.
  unfold peak. induction array as [|v array IH]; intro H; [reflexivity|].
  inversion H; subst. simpl.
  assert (E : Qltb 0 v = false) by (apply Qltb_ge; assumption).
  rewrite E. auto.
Qed.

Lemma peak_le (array : list Q) (m : Q) :
  0 <= m -> Forall (fun v => v <= m) array -> peak array <= m.
Proof.
  intros Hm H. destruct (peak_spec array) as (_ & _ & [-> | Hin]).
  - exact Hm.
  - rewrite Forall_forall in H. exact (H _ Hin).
Qed.

(** On a surface of non-negative height the target of a new bar is a whole
    number, at least 0, within one unit below peak * height * 1.2.  When no
    sample exceeds 1 it is at most 1.2 times the surface height, so a loud
    bar can be taller than the surface; when no sample is positive it is 0,
    and the bar is pushed all the same. *)
Theorem target_height_bounds (c : Config) (t : Q) (array : list Q) :
  0 <= height c ->
  let b := new_bar c t array in
  (exists z, (0 <= z)%Z /\ Bar.targetHeight b = inject_Z z)
  /\ Bar.targetHeight b <= peak array * height c * (12 # 10)
  /\ peak array * height c * (12 # 10) < Bar.targetHeight b + 1
  /\ (Forall (fun v => v <= 1) array ->
      Bar.targetHeight b <= (12 # 10) * height c)
  /\ (Forall (fun v => v <= 0) array -> Bar.targetHeight b == 0)
  /\ (forall e s, samples c e s = true ->
        exists array',
          bars (sample c e s)
          = bars s ++ [(allocated s, new_bar c (now e) array')]).
Proof.
  intros Hh b. subst b. unfold new_bar. cbn [Bar.targetHeight].
  unfold Math.floor.
  set (v := peak array * height c * (12 # 10)).
  pose proof (Qfloor_le v) as Hlo. pose proof (Qlt_floor v) as Hhi.
  rewrite inject_Z_plus in Hhi. change (inject_Z 1) with 1 in Hhi.
  destruct (peak_spec array) as (Hp & _).
  assert (Hv : 0 <= v).
  { unfold v. assert (H0 : 0 <= peak array * height c)
      by (apply Qmult_le_0_compat; assumption).
    lra. }
  split.
  { exists (Qfloor v). split; [|reflexivity].
    apply Qfloor_resp_le in Hv. exact Hv. }
  split; [exact Hlo|]. split; [exact Hhi|]. split; [|split].
  - intro H1. pose proof (peak_le array 1 ltac:(lra) H1) as Hp1.
    assert (H2 : peak array * height c <= 1 * height c)
      by (apply Qmult_le_compat_r; assumption).
    assert (H3 : v <= (12 # 10) * height c) by (unfold v; lra).
    lra.
  - intro H0. unfold v. rewrite (peak_silent array H0). reflexivity.
  - intros e s E. destruct (sample_pushes c e s E) as (a0 & _ & Hb & _).
    eexists. exact Hb.
Qed.

Lemma target_height_bounds_witness :
  Bar.targetHeight (new_bar (default_config 100 100) 0 [1 # 2; - (1)])
  <= (12 # 10) * 100.
Proof.
  refine (proj1 (proj2 (proj2 (proj2
            (target_height_bounds (default_config 100 100) 0
               [1 # 2; - (1)] _)))) _).
  - discriminate.
  - repeat constructor; discriminate.
Defined.

(** ** The initial frame *)




(** ** Stopping *)

Definition is_grant (call : Call) : bool :=
  match call with
  | CallStart (Granted _ _) => true
  | _ => false
  end.

(** How many times a stream was granted in a run. *)
Definition grants (calls : list Call) : nat :=
  List.length (filter is_grant calls).

(** At most one frame is scheduled, and [animationFrameId] is its handle. *)
Definition single_loop (s : State) : Prop :=
  pending s = []
  \/ exists id, pending s = [id] /\ animationFrameId s = Some id.

Definition loop_inv (calls : list Call) (s : State) : Prop :=
  (grants calls = 0%nat -> pending s = [])
  /\ ((grants calls <= 1)%nat -> single_loop s).

Lemma grants_snoc (calls : list Call) (call : Call) :
  grants (calls ++ [call])
  = (grants calls + if is_grant call then 1 else 0)%nat.
Proof.
  unfold grants. rewrite filter_app, length_app. simpl.
  destruct (is_grant call); reflexivity.
Qed.

Lemma animate_single (c : Config) (e : Tick) (s : State) :
  pending s = [] -> single_loop (fst (animate c e s)).
Proof.
  intro Hp. right. exists (frameId e).
  destruct (animate_fields c e s) as (_ & _ & _ & _ & -> & ->).
  rewrite Hp. split; reflexivity.
Qed.

Lemma stop_single (s : State) : single_loop s -> single_loop (fst (stop s)).
Proof.
  intros [Hp | (id & Hp & Hid)].
  - left. apply stop_pending. exact Hp.
  - unfold stop. rewrite Hid. destruct (Nat.eqb id 0) eqn:E; simpl.
    + right. exists id. auto.
    + left. rewrite Hp. simpl. rewrite Nat.eqb_refl. reflexivity.
Qed.

Lemma step_loop (c : Config) (calls : list Call) (s s' : State)
    (call : Call) (ev : list Event) :
  loop_inv calls s -> step c s call ev s' -> loop_inv (calls ++ [call]) s'.
Proof.
  intros [H0 H1] Hstep. unfold loop_inv. rewrite grants_snoc.
  destruct Hstep; cbn [is_grant].
  - rewrite Nat.add_0_r.
    pose proof (initialize_pending c s s' ev H) as Hp.
    destruct (initialize_fields c s s' ev H) as [_ Hid].
    split; [rewrite Hp; exact H0|].
    intro Hg. unfold single_loop. rewrite Hp, Hid. exact (H1 Hg).
  - split; [intro Hg; lia|]. intro Hg.
    rewrite start_granted. simpl. apply animate_single. simpl.
    apply H0. lia.
  - rewrite Nat.add_0_r, start_denied. simpl. split; assumption.
  - rewrite Nat.add_0_r. split.
    + intro Hg. apply stop_pending. exact (H0 Hg).
    + intro Hg. apply stop_single. exact (H1 Hg).
  - rewrite Nat.add_0_r. split.
    + intro Hg. rewrite (H0 Hg) in H. contradiction.
    + intro Hg. apply animate_single. simpl.
      destruct (H1 Hg) as [Hp | (id' & Hp & _)].
      * rewrite Hp. reflexivity.
      * rewrite Hp in H. destruct H as [<- | []].
        rewrite Hp. simpl. rewrite Nat.eqb_refl. reflexivity.
Qed.

Lemma steps_loop (c : Config) (s0 s : State) (calls : list Call) :
  pending s0 = [] -> steps c s0 calls s -> loop_inv calls s.
Proof.
  intros Hp Hsteps. induction Hsteps as [|s0 s1 s2 calls call ev _ IH Hstep].
  - split; [auto | left; exact Hp].
  - eapply step_loop; [exact (IH Hp) | exact Hstep].
Qed.

Lemma steps_idle (c : Config) (s s' : State) (calls : list Call) :
  pending s = [] -> Forall not_granted calls -> steps c s calls s' ->
  idle (bars s) s' /\ Forall not_frame calls.
Proof.
  intros Hp Hng Hsteps.
  induction Hsteps as [|s0 s1 s2 calls call ev _ IH Hstep].
  - split; [|constructor]. split; [exact Hp | auto].
  - apply Forall_app in Hng. destruct Hng as [Hng1 Hng2].
    inversion Hng2; subst.
    destruct (IH Hp Hng1) as [Hidle Hnf].
    destruct (step_idle c _ s1 s2 call ev Hidle H1 Hstep) as [Hidle' Hc].
    split; [exact Hidle'|]. apply Forall_app. split; [exact Hnf|].
    constructor; [exact Hc | constructor].
Qed.

Lemma filter_twice {A : Type} (f : A -> bool) (l : list A) :
  filter f (filter f l) = filter f l.
Proof.
  induction l as [|a l IH]; simpl; [reflexivity|].
  destruct (f a) eqn:E; simpl; rewrite ?E, IH; reflexivity.
Qed.

(** [stop] on an instance that never scheduled a frame does nothing and
    emits nothing; [stop] never touches the bars; and a second [stop]
    changes nothing more. *)
Theorem stop_is_idempotent (s : State) :
  (animationFrameId s = None -> stop s = (s, []))
  /\ bars (fst (stop s)) = bars s
  /\ fst (stop (fst (stop s))) = fst (stop s)
  /\ (forall id, In id (pending (fst (stop s))) -> In id (pending s)).
Proof.
  split; [|split; [|split]].
  - intro H. unfold stop. rewrite H. reflexivity.
  - exact (proj1 (stop_bars s)).
  - unfold stop.
    destruct (animationFrameId s) as [id|] eqn:E;
      [destruct (Nat.eqb id 0) eqn:E0|];
      simpl; rewrite ?E, ?E0; simpl; rewrite ?filter_twice; reflexivity.
  - intros id. unfold stop. destruct (animationFrameId s) as [id0|]; [|auto].
    destruct (Nat.eqb id0 0); simpl; [auto|].
    intro H. apply filter_In in H. tauto.
Qed.

(** In a run from a new instance in which a stream was granted at most
    once, at most one frame is ever scheduled and [animationFrameId] is its
    handle.  [stop] then leaves no frame scheduled (the handle not being 0,
    which [stop] takes for no handle): until a stream is granted again no
    frame runs and no recorded bar is added. *)
Theorem stop_halts_the_loop (c : Config) (t : Q) (calls : list Call)
    (s : State) :
  steps c (new_state t) calls s ->
  (grants calls <= 1)%nat ->
  animationFrameId s <> Some 0%nat ->
  single_loop s
  /\ pending (fst (stop s)) = []
  /\ (forall calls' s',
        Forall not_granted calls' ->
        steps c (fst (stop s)) calls' s' ->
        Forall not_frame calls'
        /\ pending s' = []
        /\ forall rb, In rb (bars s') ->
             Bar.status (snd rb) = recorded -> In rb (bars s)).
Proof.
  intros Hsteps Hg Hid.
  destruct (steps_loop c (new_state t) s calls eq_refl Hsteps) as [_ H1].
  specialize (H1 Hg).
  assert (Hp : pending (fst (stop s)) = []).
  { destruct H1 as [Hp | (id & Hp & Hid')].
    - apply stop_pending. exact Hp.
    - unfold stop. rewrite Hid'. destruct (Nat.eqb id 0) eqn:E.
      + apply Nat.eqb_eq in E. subst id. contradiction.
      + simpl. rewrite Hp. simpl. rewrite Nat.eqb_refl. reflexivity. }
  split; [exact H1|]. split; [exact Hp|].
  intros calls' s' Hng Hrun.
  destruct (steps_idle c (fst (stop s)) s' calls' Hp Hng Hrun)
    as [[Hp' Hrec] Hnf].
  split; [exact Hnf|]. split; [exact Hp'|].
  intros rb Hrb Hs. rewrite <- (proj1 (stop_bars s)). exact (Hrec rb Hrb Hs).
Qed.

Definition started_calls : list Call :=
  [CallInitialize; CallStart (Granted 0 (mkTick 0 (repeat 0 512) 1))].

Lemma started_steps :
  steps (default_config 100 100) (new_state 0) started_calls
    (fst (start (default_config 100 100)
            (Granted 0 (mkTick 0 (repeat 0 512) 1))
            (seeded (default_config 100 100)))).
Proof.
  unfold started_calls.
  change [CallInitialize; CallStart (Granted 0 (mkTick 0 (repeat 0 512) 1))]
    with (([] ++ [CallInitialize])
          ++ [CallStart (Granted 0 (mkTick 0 (repeat 0 512) 1))]).
  eapply steps_snoc.
  - eapply steps_snoc; [apply steps_nil|].
    apply step_initialize
      with (ev := drawInitialFrame (default_config 100 100)
                    (seeded (default_config 100 100))).
    reflexivity.
  - apply step_start_granted; vm_compute; discriminate.
Qed.

Lemma stop_halts_the_loop_witness :
  pending (fst (stop (fst (start (default_config 100 100)
                            (Granted 0 (mkTick 0 (repeat 0 512) 1))
                            (seeded (default_config 100 100)))))) = [].
Proof.
  refine (proj1 (proj2 (stop_halts_the_loop (default_config 100 100) 0
                          started_calls _ started_steps _ _))).
  - vm_compute. lia.
  - vm_compute. discriminate.
Defined.

(** When a stream is granted twice, with different frame handles, two
    loops run, and [stop] cancels at most the newer one: the frame of the
    first loop is still scheduled after [stop], and can run. *)
Theorem second_start_survives_stop (c : Config) (s : State) (t1 t2 : Q)
    (e1 e2 : Tick) :
  frameId e1 <> frameId e2 ->
  let s1 := fst (start c (Granted t1 e1) s) in
  let s2 := fst (start c (Granted t2 e2) s1) in
  pending s2 = frameId e2 :: frameId e1 :: pending s
  /\ In (frameId e1) (pending (fst (stop s2)))
  /\ (forall e3, clock (fst (stop s2)) <= now e3 ->
        exists ev s3, step c (fst (stop s2)) (Frame (frameId e1) e3) ev s3).
Proof.
  intros Hne s1 s2.
  assert (Hp1 : pending s1 = frameId e1 :: pending s).
  { unfold s1. rewrite start_granted. simpl.
    destruct (animate_fields c e1 (attach t1 s)) as (_ & _ & _ & _ & -> & _).
    reflexivity. }
  assert (Hp2 : pending s2 = frameId e2 :: frameId e1 :: pending s).
  { unfold s2. rewrite start_granted. simpl.
    destruct (animate_fields c e2 (attach t2 s1)) as (_ & _ & _ & _ & -> & _).
    simpl. rewrite Hp1. reflexivity. }
  assert (Hid : animationFrameId s2 = Some (frameId e2)).
  { unfold s2. rewrite start_granted. simpl.
    exact (proj2 (proj2 (proj2 (proj2 (proj2
             (animate_fields c e2 (attach t2 s1))))))). }
  assert (Hin : In (frameId e1) (pending (fst (stop s2)))).
  { unfold stop. rewrite Hid. destruct (Nat.eqb (frameId e2) 0); simpl.
    - rewrite Hp2. right. left. reflexivity.
    - rewrite Hp2. apply filter_In. split; [right; left; reflexivity|].
      apply negb_true_iff, Nat.eqb_neq. exact Hne. }
  split; [exact Hp2|]. split; [exact Hin|].
  intros e3 Hc. eexists. eexists. apply step_frame; assumption.
Qed.

Lemma second_start_survives_stop_witness :
  let c := default_config 100 100 in
  let s1 := fst (start c (Granted 0 (mkTick 0 [] 1)) (new_state 0)) in
  let s2 := fst (start c (Granted 1 (mkTick 1 [] 2)) s1) in
  In 1%nat (pending (fst (stop s2))).
Proof.
  intros c s1 s2.
  refine (proj1 (proj2 (second_start_survives_stop c (new_state 0) 0 1
                          (mkTick 0 [] 1) (mkTick 1 [] 2) _))).
  simpl. discriminate.
Defined.

(** ** The peak *)

(** The loop of lines 100-105 yields the least number that is at least 0
    and at least every sample: it is 0 or one of the samples, no sample
    exceeds it, and it is below every other such bound.  On a buffer
    without negative samples it is the largest absolute value; a negative
    sample never raises it. *)
Theorem peak_is_largest_raw_sample (array : list Q) :
  0 <= peak array
  /\ Forall (fun v => v <= peak array) array
  /\ (peak array = 0 \/ In (peak array) array)
  /\ (forall m, 0 <= m -> Forall (fun v => v <= m) array -> peak array <= m)
  /\ (Forall (fun v => 0 <= v) array -> peak array = peak_abs array)
  /\ (forall v, v <= 0 -> peak (array ++ [v]) = peak array).
Proof.
  destruct (peak_spec array) as (H1 & H2 & H3).
  split; [exact H1|]. split; [exact H2|]. split; [exact H3|].
  split; [intros m Hm H; exact (peak_le array m Hm H)|].
  split; [apply peak_abs_nonneg|].
  intros v Hv. unfold peak. rewrite fold_left_app. simpl.
  fold (peak array).
  assert (E : Qltb (peak array) v = false) by (apply Qltb_ge; lra).
  rewrite E. reflexivity.
Qed.
